(** * ReAct agent graph: routing, model-call node and time-travel checkpoints

    A shallow embedding of [src/react-agent/graph.py].  Python functions
    become Rocq functions of the same name; an exception is a [Raise] result;
    the module-level dictionary [CHECKPOINTS], standard output and a ghost
    trace of the runner's actions are threaded explicitly through [World].

    Modelling decisions.
    - A Python [str] is a Rocq [string] whose characters are code points
      below 256 (Latin-1); [lower] is Python's [str.lower] on that range.
    - A message carries the four fields of the specification's data model
      (role, content, tool-call requests, identifier); the class of a message
      ([AIMessage], [ToolMessage], ...) is its [role].
    - [await] is sequential evaluation: one session advances one step at a
      time.
    - The language model, the tool node, the clock, the methods of the
      [State] class and the compiled graph's [execute]/[is_terminal] are not
      defined in the repository: the runner takes them as parameters
      ([Collaborators], [StateClass], [Graph]).  Where a property needs them
      concrete, [StateSpec.state_class] and [compile] give the class and
      the step executor that the specification describes.
    - The [while True] loop of the runner is a fixpoint on fuel that
      answers [None] when the fuel is spent before the loop is left.
    - The values of extra attributes and of tool-call arguments are the
      Python values that [json.dumps] writes ([Json.json]); a float is
      held by its decimal literal.  [Json.dumps] is the text that
      [json.dumps] returns and [Json.dumps_checked] tells when it returns
      it; a save in the model does not fail.
    - [State] is typed: [setattr] keeps of an assignment what the typed
      fields can hold and marks the rest as [NotModelled]. *)

From Stdlib Require Import String Ascii List Bool Arith ZArith NArith Lia.
From Stdlib Require Decimal DecimalFacts DecimalNat DecimalPos DecimalN Finite.
Import ListNotations.

Local Open Scope string_scope.
Local Open Scope list_scope.

(* ================================================================== *)
(** * Part I: definitions *)
(* ================================================================== *)

(** ** Python values used by the module *)

Module Py.

(** Exceptions the module raises or lets through.  [NotModelled] is not
    one of them: it marks the point where Python goes on with a value that
    the model has no place for, and says nothing about the program. *)
Inductive exn : Type :=
| ValueError (msg : string)
| IndexError (msg : string)
| KeyError (key : string)
| TypeError (msg : string)
| RecursionError
| JSONDecodeError
| NotModelled (what : string).

Inductive result (A : Type) : Type :=
| Ok (a : A)
| Raise (e : exn).
Arguments Ok {A} a.
Arguments Raise {A} e.

Definition bind {A B} (r : result A) (k : A -> result B) : result B :=
  match r with
  | Ok a => k a
  | Raise e => Raise e
  end.

(** [str.lower] of one code point below 256: A-Z and the Latin-1 capitals
    (0xC0-0xDE except the multiplication sign 0xD7) move up by 32. *)
Definition lower_char (c : ascii) : ascii :=
  let n := nat_of_ascii c in
  if (((65 <=? n) && (n <=? 90))
      || ((192 <=? n) && (n <=? 222) && negb (n =? 215)))%nat
  then ascii_of_nat (n + 32)
  else c.

Fixpoint lower (s : string) : string :=
  match s with
  | EmptyString => EmptyString
  | String c r => String (lower_char c) (lower r)
  end.

(** [needle in hay] on strings. *)
Fixpoint str_in (needle hay : string) : bool :=
  prefix needle hay
  || match hay with
     | EmptyString => false
     | String _ r => str_in needle r
     end.

(** [any(...)] over a list. *)
Definition any {A} (p : A -> bool) (l : list A) : bool := existsb p l.

(** Decimal digits of an unsigned number, most significant first. *)
Fixpoint uint_chars (d : Decimal.uint) : list ascii :=
  match d with
  | Decimal.Nil => []
  | Decimal.D0 d => "0"%char :: uint_chars d
  | Decimal.D1 d => "1"%char :: uint_chars d
  | Decimal.D2 d => "2"%char :: uint_chars d
  | Decimal.D3 d => "3"%char :: uint_chars d
  | Decimal.D4 d => "4"%char :: uint_chars d
  | Decimal.D5 d => "5"%char :: uint_chars d
  | Decimal.D6 d => "6"%char :: uint_chars d
  | Decimal.D7 d => "7"%char :: uint_chars d
  | Decimal.D8 d => "8"%char :: uint_chars d
  | Decimal.D9 d => "9"%char :: uint_chars d
  end.

(** [str(n)] for a natural number, as an f-string formats it. *)
Definition str_of_nat (n : nat) : string :=
  string_of_list_ascii (uint_chars (Nat.to_uint n)).

(** A [dict] keeps its keys in insertion order: an association list whose
    keys are distinct. *)
Definition dict (V : Type) : Type := list (string * V).

Fixpoint dict_get {V} (d : dict V) (k : string) : option V :=
  match d with
  | [] => None
  | (k', v) :: r => if String.eqb k' k then Some v else dict_get r k
  end.

(** [d[k] = v]: the value of an existing key is replaced in place, a new
    key goes to the end. *)
Fixpoint dict_set {V} (d : dict V) (k : string) (v : V) : dict V :=
  match d with
  | [] => [(k, v)]
  | (k', v') :: r =>
      if String.eqb k' k then (k', v) :: r else (k', v') :: dict_set r k v
  end.

Definition dict_keys {V} (d : dict V) : list string := map fst d.

(** [l[-1]]. *)
Definition last_item {A} (l : list A) : result A :=
  match List.rev l with
  | [] => Raise (IndexError "list index out of range")
  | x :: _ => Ok x
  end.

End Py.
Import Py.

Notation "x <- c ;; k" := (bind c (fun x => k))
  (at level 61, c at next level, right associativity).

(** ** The [json] module: values, [dumps] and [loads]

    The standard library's encoder with its default settings
    ([ensure_ascii], [allow_nan], separators [", "] and [": "]) and its
    decoder.  Text is Latin-1: an escape for a code point above 255 is
    where the decoder of the model stops ([NotModelled]). *)

Module Json.

#[local] Set Warnings "-register-all".

(** The Python values that reach the encoder: [None], [bool], [int],
    [float], [str], [list], [tuple], and [dict] with [str] keys.  A float
    is given by a decimal literal of it: the one the encoder writes for it,
    that is [float.__repr__], or [Infinity], [-Infinity], [NaN].  The
    decoder keeps the literal it reads. *)
Inductive json : Type :=
| JNull
| JBool (b : bool)
| JInt (z : Z)
| JFloat (literal : string)
| JStr (s : string)
| JArr (items : list json)
| JTuple (items : list json)
| JObj (members : dict json).

(** Induction over values, with the hypothesis for every item of a list or
    a tuple and every value of a dictionary. *)
Fixpoint json_nested_ind (P : json -> Prop)
  (Hnull : P JNull) (Hbool : forall b, P (JBool b))
  (Hint : forall z, P (JInt z)) (Hfloat : forall literal, P (JFloat literal))
  (Hstr : forall s, P (JStr s))
  (Harr : forall items, Forall P items -> P (JArr items))
  (Htuple : forall items, Forall P items -> P (JTuple items))
  (Hobj : forall members,
      Forall (fun kv => P (snd kv)) members -> P (JObj members))
  (v : json) {struct v} : P v :=
  match v with
  | JNull => Hnull
  | JBool b => Hbool b
  | JInt z => Hint z
  | JFloat literal => Hfloat literal
  | JStr s => Hstr s
  | JArr items =>
      Harr items
        ((fix all (l : list json) : Forall P l :=
            match l with
            | [] => Forall_nil P
            | x :: r =>
                Forall_cons x
                  (json_nested_ind P Hnull Hbool Hint Hfloat Hstr Harr Htuple
                     Hobj x)
                  (all r)
            end) items)
  | JTuple items =>
      Htuple items
        ((fix all (l : list json) : Forall P l :=
            match l with
            | [] => Forall_nil P
            | x :: r =>
                Forall_cons x
                  (json_nested_ind P Hnull Hbool Hint Hfloat Hstr Harr Htuple
                     Hobj x)
                  (all r)
            end) items)
  | JObj members =>
      Hobj members
        ((fix all (l : list (string * json))
            : Forall (fun kv => P (snd kv)) l :=
            match l with
            | [] => Forall_nil _
            | kv :: r =>
                Forall_cons kv
                  (json_nested_ind P Hnull Hbool Hint Hfloat Hstr Harr Htuple
                     Hobj (snd kv))
                  (all r)
            end) members)
  end.

Definition dquote : ascii := "034"%char.
Definition backslash : ascii := "092"%char.

Definition hex_digit (n : nat) : ascii :=
  match n with
  | 0 => "0" | 1 => "1" | 2 => "2" | 3 => "3" | 4 => "4" | 5 => "5"
  | 6 => "6" | 7 => "7" | 8 => "8" | 9 => "9" | 10 => "a" | 11 => "b"
  | 12 => "c" | 13 => "d" | 14 => "e" | _ => "f"
  end%char.

(** The encoder's escape table: quote, backslash and the five short
    escapes; every other character outside [' '..'~'] as [\u00xx]. *)
Definition escape_char (c : ascii) : list ascii :=
  let n := nat_of_ascii c in
  if (n =? 34)%nat then [backslash; dquote]
  else if (n =? 92)%nat then [backslash; backslash]
  else if (n =? 10)%nat then [backslash; "n"%char]
  else if (n =? 13)%nat then [backslash; "r"%char]
  else if (n =? 9)%nat then [backslash; "t"%char]
  else if (n =? 8)%nat then [backslash; "b"%char]
  else if (n =? 12)%nat then [backslash; "f"%char]
  else if ((n <? 32) || (126 <? n))%nat
       then [backslash; "u"%char; "0"%char; "0"%char;
             hex_digit (n / 16); hex_digit (n mod 16)]
  else [c].

Definition emit_string (s : string) : list ascii :=
  dquote :: flat_map escape_char (list_ascii_of_string s) ++ [dquote].

Definition emit_int (z : Z) : list ascii :=
  if (z <? 0)%Z
  then "-"%char :: uint_chars (N.to_uint (Z.abs_N z))
  else uint_chars (N.to_uint (Z.to_N z)).

(** [", ".join(parts)]. *)
Fixpoint join (parts : list (list ascii)) : list ascii :=
  match parts with
  | [] => []
  | [p] => p
  | p :: rest => p ++ ","%char :: " "%char :: join rest
  end.

(** What the encoder writes for a value; a tuple is written as a list. *)
Fixpoint emit (v : json) : list ascii :=
  match v with
  | JNull => list_ascii_of_string "null"
  | JBool true => list_ascii_of_string "true"
  | JBool false => list_ascii_of_string "false"
  | JInt z => emit_int z
  | JFloat literal => list_ascii_of_string literal
  | JStr s => emit_string s
  | JArr items | JTuple items =>
      "["%char :: join (map emit items) ++ ["]"%char]
  | JObj members =>
      "{"%char
        :: join (map (fun kv => emit_string (fst kv)
                                  ++ ":"%char :: " "%char :: emit (snd kv))
                     members)
        ++ ["}"%char]
  end.

(** The text [json.dumps] returns.  Where [json.dumps] raises instead (see
    [dumps_checked]) a run of the source stops at the save; the runner of
    the model goes on with this text. *)
Definition dumps (v : json) : string := string_of_list_ascii (emit v).

(** [sys.get_int_max_str_digits()], as the interpreter starts. *)
Definition int_max_str_digits : N := 4300.

Definition int_digits (z : Z) : N :=
  N.of_nat (List.length (uint_chars (N.to_uint (Z.abs_N z)))).

(** The encoder as it fails: [ValueError] on an integer of more digits than
    the interpreter converts to text, [RecursionError] when lists and
    dictionaries are nested deeper than [limit], the number of levels the
    interpreter has left when [json.dumps] is called.  Values are visited
    in their order. *)
Fixpoint emit_checked (limit : nat) (v : json) {struct v}
  : result (list ascii) :=
  match v with
  | JInt z =>
      if (int_max_str_digits <? int_digits z)%N
      then Raise (ValueError
                    "Exceeds the limit (4300 digits) for integer string conversion")
      else Ok (emit_int z)
  | JArr items | JTuple items =>
      match limit with
      | O => Raise RecursionError
      | S limit' =>
          parts <- (fix all (l : list json) : result (list (list ascii)) :=
                      match l with
                      | [] => Ok []
                      | x :: r =>
                          p <- emit_checked limit' x ;;
                          ps <- all r ;;
                          Ok (p :: ps)
                      end) items ;;
          Ok ("["%char :: join parts ++ ["]"%char])
      end
  | JObj members =>
      match limit with
      | O => Raise RecursionError
      | S limit' =>
          parts <- (fix all (l : list (string * json))
                      : result (list (list ascii)) :=
                      match l with
                      | [] => Ok []
                      | kv :: r =>
                          p <- emit_checked limit' (snd kv) ;;
                          ps <- all r ;;
                          Ok ((emit_string (fst kv)
                                 ++ ":"%char :: " "%char :: p) :: ps)
                      end) members ;;
          Ok ("{"%char :: join parts ++ ["}"%char])
      end
  | _ => Ok (emit v)
  end.

(** [json.dumps], with the exceptions it raises. *)
Definition dumps_checked (limit : nat) (v : json) : result string :=
  chars <- emit_checked limit v ;;
  Ok (string_of_list_ascii chars).

(** How deep lists, tuples and dictionaries are nested in a value. *)
Fixpoint depth (v : json) : nat :=
  match v with
  | JArr items | JTuple items =>
      S (fold_right (fun x d => Nat.max (depth x) d) 0 items)
  | JObj members =>
      S (fold_right (fun kv d => Nat.max (depth (snd kv)) d) 0 members)
  | _ => 0
  end.

Definition is_ws (c : ascii) : bool :=
  let n := nat_of_ascii c in
  ((n =? 32) || (n =? 9) || (n =? 10) || (n =? 13))%nat.

Fixpoint skip_ws (s : list ascii) : list ascii :=
  match s with
  | c :: r => if is_ws c then skip_ws r else s
  | [] => []
  end.

Fixpoint strip_prefix (p s : list ascii) : option (list ascii) :=
  match p, s with
  | [], _ => Some s
  | a :: p', b :: s' => if Ascii.eqb a b then strip_prefix p' s' else None
  | _ :: _, [] => None
  end.

Definition digit_of (c : ascii) : option (Decimal.uint -> Decimal.uint) :=
  match nat_of_ascii c with
  | 48 => Some Decimal.D0 | 49 => Some Decimal.D1 | 50 => Some Decimal.D2
  | 51 => Some Decimal.D3 | 52 => Some Decimal.D4 | 53 => Some Decimal.D5
  | 54 => Some Decimal.D6 | 55 => Some Decimal.D7 | 56 => Some Decimal.D8
  | 57 => Some Decimal.D9
  | _ => None
  end.

Definition is_digit (c : ascii) : bool :=
  match digit_of c with Some _ => true | None => false end.

(** The number that a run of decimal digits writes, and what follows the
    run. *)
Fixpoint scan_uint (s : list ascii) : Decimal.uint * list ascii :=
  match s with
  | [] => (Decimal.Nil, [])
  | c :: r =>
      match digit_of c with
      | Some k => let (d, r') := scan_uint r in (k d, r')
      | None => (Decimal.Nil, s)
      end
  end.

(** The digits at the head of [s], and what follows them. *)
Fixpoint span_digits (s : list ascii) : list ascii * list ascii :=
  match s with
  | [] => ([], [])
  | c :: r =>
      if is_digit c
      then let (ds, rest) := span_digits r in (c :: ds, rest)
      else ([], s)
  end.

(** The decoder's pattern for a number has three groups: an integer part
    (an optional minus sign, then a single 0 or a digit from 1 to 9 followed
    by any digits), an optional fraction (a point and at least one digit)
    and an optional exponent (e or E, an optional sign and at least one
    digit).  The digits of the integer part: after a 0 no further digit
    belongs to it. *)
Definition scan_unsigned (s : list ascii)
  : option (list ascii * list ascii) :=
  match s with
  | c :: r =>
      if Ascii.eqb c "0"%char then Some ([c], r)
      else if is_digit c
           then let (ds, rest) := span_digits r in Some (c :: ds, rest)
      else None
  | [] => None
  end.

Definition scan_integer (s : list ascii)
  : option (list ascii * list ascii) :=
  match s with
  | c :: r =>
      if Ascii.eqb c "-"%char then
        match scan_unsigned r with
        | Some (ds, rest) => Some (c :: ds, rest)
        | None => None
        end
      else scan_unsigned s
  | [] => None
  end.

(** The fraction, when a point is followed by a digit. *)
Definition scan_fraction (s : list ascii) : list ascii * list ascii :=
  match s with
  | c :: r =>
      if Ascii.eqb c "."%char then
        match span_digits r with
        | ([], _) => ([], s)
        | (ds, rest) => (c :: ds, rest)
        end
      else ([], s)
  | [] => ([], s)
  end.

(** The exponent, when [e] or [E] and an optional sign are followed by a
    digit. *)
Definition scan_exponent (s : list ascii) : list ascii * list ascii :=
  match s with
  | e :: r =>
      if (Ascii.eqb e "e"%char || Ascii.eqb e "E"%char)%bool then
        let (sign, r1) :=
          match r with
          | c :: r' =>
              if (Ascii.eqb c "+"%char || Ascii.eqb c "-"%char)%bool
              then ([c], r')
              else ([], r)
          | [] => ([], r)
          end in
        match span_digits r1 with
        | ([], _) => ([], s)
        | (ds, rest) => (e :: sign ++ ds, rest)
        end
      else ([], s)
  | [] => ([], s)
  end.

(** The match of the number pattern at the head of [s]: integer part,
    fraction, exponent, and what follows. *)
Definition scan_number (s : list ascii)
  : option (list ascii * list ascii * list ascii * list ascii) :=
  match scan_integer s with
  | None => None
  | Some (int, r1) =>
      let (frac, r2) := scan_fraction r1 in
      let (exp, r3) := scan_exponent r2 in
      Some (int, frac, exp, r3)
  end.

(** [int(literal)]: refused beyond the interpreter's limit of digits. *)
Definition int_of_literal (literal : list ascii) : result json :=
  let (negative, digits) :=
    match literal with
    | c :: r => if Ascii.eqb c "-"%char then (true, r) else (false, literal)
    | [] => (false, literal)
    end in
  if (int_max_str_digits <? N.of_nat (List.length digits))%N
  then Raise (ValueError
                "Exceeds the limit (4300 digits) for integer string conversion")
  else
    let n := Z.of_N (N.of_uint (fst (scan_uint digits))) in
    Ok (JInt (if negative then (- n)%Z else n)).

(** The value of a matched number: a float when there is a fraction or an
    exponent, an integer otherwise. *)
Definition number_value (int frac exp : list ascii) : result json :=
  match frac, exp with
  | [], [] => int_of_literal int
  | _, _ => Ok (JFloat (string_of_list_ascii (int ++ frac ++ exp)))
  end.

(** What the decoder tries when the number pattern does not match. *)
Definition parse_constant (s : list ascii) : result (json * list ascii) :=
  match strip_prefix (list_ascii_of_string "NaN") s with
  | Some r => Ok (JFloat "NaN", r)
  | None =>
      match strip_prefix (list_ascii_of_string "Infinity") s with
      | Some r => Ok (JFloat "Infinity", r)
      | None =>
          match strip_prefix (list_ascii_of_string "-Infinity") s with
          | Some r => Ok (JFloat "-Infinity", r)
          | None => Raise JSONDecodeError
          end
      end
  end.

Definition parse_number (s : list ascii) : result (json * list ascii) :=
  match scan_number s with
  | Some (int, frac, exp, rest) =>
      v <- number_value int frac exp ;;
      Ok (v, rest)
  | None => parse_constant s
  end.

Definition hex_val (c : ascii) : option nat :=
  let n := nat_of_ascii c in
  if ((48 <=? n) && (n <=? 57))%nat then Some (n - 48)
  else if ((97 <=? n) && (n <=? 102))%nat then Some (n - 87)
  else if ((65 <=? n) && (n <=? 70))%nat then Some (n - 55)
  else None.

Definition unescape_short (e : ascii) : option ascii :=
  match nat_of_ascii e with
  | 34 => Some dquote
  | 92 => Some backslash
  | 47 => Some "/"%char
  | 98 => Some "008"%char
  | 102 => Some "012"%char
  | 110 => Some "010"%char
  | 114 => Some "013"%char
  | 116 => Some "009"%char
  | _ => None
  end.

(** The characters of a string literal after its opening quote, up to and
    without the closing quote, and the input left after it. *)
Fixpoint parse_chars (s : list ascii) : result (list ascii * list ascii) :=
  match s with
  | [] => Raise JSONDecodeError
  | c :: r =>
      if Ascii.eqb c dquote then Ok ([], r)
      else if Ascii.eqb c backslash then
        match r with
        | [] => Raise JSONDecodeError
        | e :: r1 =>
            if Ascii.eqb e "u"%char then
              match r1 with
              | h1 :: h2 :: h3 :: h4 :: r2 =>
                  match hex_val h1, hex_val h2, hex_val h3, hex_val h4 with
                  | Some a, Some b, Some x, Some y =>
                      let n := ((a * 16 + b) * 16 + x) * 16 + y in
                      if (n <? 256)%nat then
                        p <- parse_chars r2 ;;
                        Ok (ascii_of_nat n :: fst p, snd p)
                      else Raise (NotModelled "code point above 255")
                  | _, _, _, _ => Raise JSONDecodeError
                  end
              | _ => Raise JSONDecodeError
              end
            else
              match unescape_short e with
              | Some c' =>
                  p <- parse_chars r1 ;;
                  Ok (c' :: fst p, snd p)
              | None => Raise JSONDecodeError
              end
        end
      else if (nat_of_ascii c <? 32)%nat then Raise JSONDecodeError
      else
        p <- parse_chars r ;;
        Ok (c :: fst p, snd p)
  end.

Definition parse_string (s : list ascii) : result (string * list ascii) :=
  p <- parse_chars s ;;
  Ok (string_of_list_ascii (fst p), snd p).

(** A decoded object is built by assignment, key after key: a repeated key
    keeps its first position and its last value. *)
Definition dict_of_pairs (l : list (string * json)) : dict json :=
  fold_left (fun d kv => dict_set d (fst kv) (snd kv)) l [].

(** The decoder.  [fuel] bounds the calls; [loads] gives as much as the
    text is long, which no text uses up before it is read or refused. *)
Fixpoint parse_value (fuel : nat) (s : list ascii)
  : result (json * list ascii) :=
  match fuel with
  | O => Raise JSONDecodeError
  | S fuel' =>
      match skip_ws s with
      | [] => Raise JSONDecodeError
      | c :: r =>
          if Ascii.eqb c dquote then
            p <- parse_string r ;;
            Ok (JStr (fst p), snd p)
          else if Ascii.eqb c "{"%char then
            match skip_ws r with
            | [] => Raise JSONDecodeError
            | c' :: r' =>
                if Ascii.eqb c' "}"%char then Ok (JObj [], r')
                else
                  p <- parse_members fuel' r ;;
                  Ok (JObj (dict_of_pairs (fst p)), snd p)
            end
          else if Ascii.eqb c "["%char then
            match skip_ws r with
            | [] => Raise JSONDecodeError
            | c' :: r' =>
                if Ascii.eqb c' "]"%char then Ok (JArr [], r')
                else
                  p <- parse_elements fuel' r ;;
                  Ok (JArr (fst p), snd p)
            end
          else if Ascii.eqb c "n"%char then
            match strip_prefix (list_ascii_of_string "ull") r with
            | Some r' => Ok (JNull, r')
            | None => Raise JSONDecodeError
            end
          else if Ascii.eqb c "t"%char then
            match strip_prefix (list_ascii_of_string "rue") r with
            | Some r' => Ok (JBool true, r')
            | None => Raise JSONDecodeError
            end
          else if Ascii.eqb c "f"%char then
            match strip_prefix (list_ascii_of_string "alse") r with
            | Some r' => Ok (JBool false, r')
            | None => Raise JSONDecodeError
            end
          else parse_number (c :: r)
      end
  end
with parse_elements (fuel : nat) (s : list ascii)
  : result (list json * list ascii) :=
  match fuel with
  | O => Raise JSONDecodeError
  | S fuel' =>
      p <- parse_value fuel' s ;;
      match skip_ws (snd p) with
      | [] => Raise JSONDecodeError
      | c :: r' =>
          if Ascii.eqb c ","%char then
            q <- parse_elements fuel' r' ;;
            Ok (fst p :: fst q, snd q)
          else if Ascii.eqb c "]"%char then Ok ([fst p], r')
          else Raise JSONDecodeError
      end
  end
with parse_members (fuel : nat) (s : list ascii)
  : result (list (string * json) * list ascii) :=
  match fuel with
  | O => Raise JSONDecodeError
  | S fuel' =>
      match skip_ws s with
      | [] => Raise JSONDecodeError
      | q :: r =>
          if Ascii.eqb q dquote then
            k <- parse_string r ;;
            match skip_ws (snd k) with
            | [] => Raise JSONDecodeError
            | c1 :: r2 =>
                if Ascii.eqb c1 ":"%char then
                  p <- parse_value fuel' r2 ;;
                  match skip_ws (snd p) with
                  | [] => Raise JSONDecodeError
                  | c3 :: r4 =>
                      if Ascii.eqb c3 ","%char then
                        m <- parse_members fuel' r4 ;;
                        Ok ((fst k, fst p) :: fst m, snd m)
                      else if Ascii.eqb c3 "}"%char
                           then Ok ([(fst k, fst p)], r4)
                      else Raise JSONDecodeError
                  end
                else Raise JSONDecodeError
            end
          else Raise JSONDecodeError
      end
  end.

(** [json.loads]: one value, then nothing but white space.  The library's
    decoder raises [RecursionError] on text nested deeper than the
    interpreter allows; the model reads such text. *)
Definition loads (s : string) : result json :=
  let cs := list_ascii_of_string s in
  p <- parse_value (S (List.length cs)) cs ;;
  match skip_ws (snd p) with
  | [] => Ok (fst p)
  | _ :: _ => Raise JSONDecodeError
  end.

(** A literal that the decoder reads as a float and the encoder writes for
    one: [Infinity], [-Infinity], or a match of the whole number pattern
    with a fraction or an exponent.  [NaN] is left out: it is not equal to
    itself. *)
Definition is_float_literal (literal : string) : bool :=
  String.eqb literal "Infinity" || String.eqb literal "-Infinity"
  || match scan_number (list_ascii_of_string literal) with
     | Some (_, frac, exp, []) =>
         negb (match frac, exp with [], [] => true | _, _ => false end)
     | _ => false
     end.

(** A value that comes back from its text as it went in: no tuple, floats
    given by the literal of a float other than [NaN], integers within the
    interpreter's limit of digits, and in every dictionary distinct keys. *)
Fixpoint wf_json (v : json) : Prop :=
  match v with
  | JInt z => (int_digits z <= int_max_str_digits)%N
  | JFloat literal => is_float_literal literal = true
  | JTuple _ => False
  | JArr items => (fix all (l : list json) : Prop :=
                     match l with
                     | [] => True
                     | x :: r => wf_json x /\ all r
                     end) items
  | JObj members =>
      NoDup (dict_keys members)
      /\ (fix all (l : list (string * json)) : Prop :=
            match l with
            | [] => True
            | kv :: r => wf_json (snd kv) /\ all r
            end) members
  | _ => True
  end.

(** What may follow a value inside a document: nothing, a comma, or a
    closing bracket or brace. *)
Definition at_delimiter (rest : list ascii) : bool :=
  match rest with
  | [] => true
  | c :: _ =>
      let n := nat_of_ascii c in ((n =? 44) || (n =? 93) || (n =? 125))%nat
  end.

(** What follows a number without being read as a part of it: nothing, or
    a character that is no digit, point, exponent mark or sign. *)
Definition ends_number (rest : list ascii) : bool :=
  match rest with
  | [] => true
  | c :: _ =>
      negb (is_digit c || Ascii.eqb c "."%char || Ascii.eqb c "e"%char
            || Ascii.eqb c "E"%char || Ascii.eqb c "+"%char
            || Ascii.eqb c "-"%char)
  end.

(** One member of an object as the encoder writes it. *)
Definition emit_member (kv : string * json) : list ascii :=
  emit_string (fst kv) ++ ":"%char :: " "%char :: emit (snd kv).

(** The part of a float literal before its exponent. *)
Fixpoint mantissa (s : list ascii) : list ascii :=
  match s with
  | [] => []
  | c :: r =>
      if (Ascii.eqb c "e"%char || Ascii.eqb c "E"%char)%bool then []
      else c :: mantissa r
  end.

(** [bool(v)]: a value in a condition.  A float is false when it is zero,
    that is when its mantissa has no digit but [0]. *)
Definition truth_value (v : json) : bool :=
  match v with
  | JNull => false
  | JBool b => b
  | JInt z => negb (z =? 0)%Z
  | JFloat literal =>
      existsb (fun c => negb (Ascii.eqb c "0"%char || Ascii.eqb c "-"%char
                              || Ascii.eqb c "."%char))
              (mantissa (list_ascii_of_string literal))
  | JStr s => match s with EmptyString => false | String _ _ => true end
  | JArr items | JTuple items =>
      match items with [] => false | _ :: _ => true end
  | JObj members => match members with [] => false | _ :: _ => true end
  end.

End Json.
Import Json.

(** ** Messages and the agent state *)

(** The class of a message: [SystemMessage], [HumanMessage], [AIMessage]
    or [ToolMessage]. *)
Inductive Role : Type := System | Human | AI | Tool.

(** [type(m).__name__]. *)
Definition type_name (r : Role) : string :=
  match r with
  | System => "SystemMessage"
  | Human => "HumanMessage"
  | AI => "AIMessage"
  | Tool => "ToolMessage"
  end.

Record ToolCall : Type := { tc_name : string; tc_args : json }.

Record Message : Type := {
  role : Role;
  content : string;
  tool_calls : list ToolCall;
  msg_id : option string
}.

(** [AIMessage(id=..., content=...)]: no tool-call request. *)
Definition AIMessage (id : option string) (text : string) : Message :=
  {| role := AI; content := text; tool_calls := []; msg_id := id |}.

(** The [{"role": "system", "content": ...}] entry the model call puts in
    front of the transcript. *)
Definition system_entry (text : string) : Message :=
  {| role := System; content := text; tool_calls := []; msg_id := None |}.

Definition isinstance_AIMessage (m : Message) : bool :=
  match role m with AI => true | _ => false end.

(** [State]: the transcript, the step-budget flag, and whatever further
    attributes were set on the object. *)
Record State : Type := {
  messages : list Message;
  is_last_step : bool;
  extra : dict json
}.

Record InputState : Type := { input_messages : list Message }.

(** What a node returns: a dictionary from a state key to new messages. *)
Definition Output : Type := dict (list Message).

(** A list in a condition: true when it is not empty. *)
Definition truthy {A} (l : list A) : bool :=
  match l with [] => false | _ :: _ => true end.

(** ** External collaborators *)

(** What the module imports and does not define: the configured prompt,
    the clock, the chat model with the tools bound, and the prebuilt tool
    node.  [utc_now k] is the clock as read by the step of index [k]. *)
Record Collaborators : Type := {
  system_prompt : string -> string;
  utc_now : nat -> string;
  chat_model : list Message -> result Message;
  tool_node : State -> result Output
}.

(** The methods of the [State] class that the module calls and the
    repository does not define. *)
Record StateClass : Type := {
  new_state : InputState -> State;
  to_dict : State -> json;
  from_dict : json -> result State
}.

(** A compiled graph as the runner uses it: [execute] runs the next step
    and [is_terminal] tells whether the run is over; [gstate] is whatever
    the graph object remembers between the two calls. *)
Record Graph : Type := {
  gstate : Type;
  execute : gstate -> State -> result (Output * gstate);
  is_terminal : gstate -> State -> result bool
}.

(** ** The nodes *)

Definition fallback_text : string :=
  "Sorry, I could not find an answer to your question in the specified number of steps.".

(** [tick] is the index of the step that runs the node: it tells which
    reading of the clock goes into the system message. *)
Definition call_model (env : Collaborators) (tick : nat) (state : State)
  : result Output :=
  let system_message := system_prompt env (utc_now env tick) in
  response <- chat_model env (system_entry system_message :: messages state) ;;
  if is_last_step state && truthy (tool_calls response)
  then Ok [("messages", [AIMessage (msg_id response) fallback_text])]
  else Ok [("messages", [response])].

Definition human_review (state : State) : result Output :=
  last_message <- last_item (messages state) ;;
  Ok [("messages", [last_message])].

Definition sensitive_keywords : list string :=
  ["suicide"; "kill myself"; "password"; "credentials"].

(** [message.content or ""] is the content itself: it is text. *)
Definition contains_sensitive_info (message : Message) : bool :=
  let text := lower (content message) in
  any (fun keyword => str_in keyword text) sensitive_keywords.

Definition route_model_output (state : State) : result string :=
  last_message <- last_item (messages state) ;;
  if negb (isinstance_AIMessage last_message)
  then Raise (ValueError ("Expected AIMessage in output edges, but got "
                            ++ type_name (role last_message)))
  else if contains_sensitive_info last_message then Ok "human_review"
  else if truthy (tool_calls last_message) then Ok "tools"
  else Ok "__end__".

(** ** The graph *)

(** What the builder collects: named nodes (each receives the index of the
    step that runs it), fixed edges, and conditional edges. *)
Record GraphDef : Type := {
  nodes : dict (nat -> State -> result Output);
  edges : dict string;
  conditional_edges : dict (State -> result string)
}.

Definition builder (env : Collaborators) : GraphDef :=
  {| nodes := [("call_model", call_model env);
               ("tools", fun _ => tool_node env);
               ("human_review", fun _ => human_review)];
     edges := [("__start__", "call_model");
               ("tools", "call_model");
               ("human_review", "__end__")];
     conditional_edges := [("call_model", route_model_output)] |}.

(** Where a compiled graph stands: the node it ran last, and how many
    steps it has run. *)
Record Position : Type := { at_node : string; steps_run : nat }.

Definition start_position : Position :=
  {| at_node := "__start__"; steps_run := 0 |}.

(** The node that follows [at_node]: by the conditional edge when there is
    one (decided on the state as it is now), by the fixed edge otherwise. *)
Definition next_node (def : GraphDef) (pos : Position) (state : State)
  : result string :=
  match dict_get (conditional_edges def) (at_node pos) with
  | Some decide => decide state
  | None =>
      match dict_get (edges def) (at_node pos) with
      | Some target => Ok target
      | None => Raise (KeyError (at_node pos))
      end
  end.

(** Modelled from the spec: [graph.execute], which the repository calls and
    does not define.  "Applies one node's transition function to state,
    producing incremental output": one node per call, the node indicated by
    the graph position, "as decided by Router for conditional edges, or the
    static edge otherwise". *)
Definition graph_execute (def : GraphDef) (pos : Position) (state : State)
  : result (Output * Position) :=
  target <- next_node def pos state ;;
  if String.eqb target "__end__" then Ok ([], pos)
  else
    match dict_get (nodes def) target with
    | None => Raise (KeyError target)
    | Some node =>
        output <- node (steps_run pos) state ;;
        Ok (output, {| at_node := target; steps_run := S (steps_run pos) |})
    end.

(** Modelled from the spec: [graph.is_terminal], which the repository calls
    and does not define: the state is terminal when the next edge leads to
    [__end__]. *)
Definition graph_is_terminal (def : GraphDef) (pos : Position)
  (state : State) : result bool :=
  target <- next_node def pos state ;;
  Ok (String.eqb target "__end__").

(** [builder.compile(name="ReAct Agent")]. *)
Definition compile (def : GraphDef) : Graph :=
  {| gstate := Position;
     execute := graph_execute def;
     is_terminal := graph_is_terminal def |}.

Definition graph (env : Collaborators) : Graph := compile (builder env).

(** ** Time travel support *)

(** What the runner did, in order: a checkpoint of [state] stored under
    [checkpoint_id], or a step of the graph started on [state]. *)
Inductive Event : Type :=
| Saved (checkpoint_id : string) (state : State)
| Executed (state : State).

(** The mutable surroundings of a run: the module-level dictionary, the
    lines printed, and the ghost trace. *)
Record World : Type := {
  CHECKPOINTS : dict string;
  stdout : list string;
  trace : list Event
}.

Definition empty_world : World :=
  {| CHECKPOINTS := []; stdout := []; trace := [] |}.

Definition serialize_state (cls : StateClass) (state : State) : string :=
  dumps (to_dict cls state).

Definition deserialize_state (cls : StateClass) (serialized : string)
  : result State :=
  data <- loads serialized ;;
  from_dict cls data.

(** [f"ckpt_{len(CHECKPOINTS)}"]. *)
Definition next_checkpoint_id (store : dict string) : string :=
  "ckpt_" ++ str_of_nat (List.length store).

(** The three lines that store a checkpoint of [state] and print its
    identifier; they stand twice in the runner, with two labels. *)
Definition save_checkpoint (cls : StateClass) (label : string)
  (state : State) (w : World) : string * World :=
  let checkpoint_id := next_checkpoint_id (CHECKPOINTS w) in
  (checkpoint_id,
   {| CHECKPOINTS :=
        dict_set (CHECKPOINTS w) checkpoint_id (serialize_state cls state);
      stdout := stdout w ++ [(label ++ checkpoint_id)%string];
      trace := trace w ++ [Saved checkpoint_id state] |}).

(** [state.messages.extend(output["messages"])] when the key is there. *)
Definition merge_output (state : State) (output : Output) : State :=
  match dict_get output "messages" with
  | Some new_messages =>
      {| messages := messages state ++ new_messages;
         is_last_step := is_last_step state;
         extra := extra state |}
  | None => state
  end.

Definition log_step (state : State) (w : World) : World :=
  {| CHECKPOINTS := CHECKPOINTS w;
     stdout := stdout w;
     trace := trace w ++ [Executed state] |}.

(** The [while True] loop.  [None]: the fuel ran out inside the loop. *)
Fixpoint run_loop (cls : StateClass) (gr : Graph) (fuel : nat)
  (g : gstate gr) (state : State) (w : World)
  : option (result State) * World :=
  match fuel with
  | O => (None, w)
  | S fuel' =>
      let (_, w1) := save_checkpoint cls "Checkpoint saved: " state w in
      let w2 := log_step state w1 in
      match execute gr g state with
      | Raise e => (Some (Raise e), w2)
      | Ok (output, g') =>
          let state' := merge_output state output in
          match is_terminal gr g' state' with
          | Raise e => (Some (Raise e), w2)
          | Ok true => (Some (Ok state'), w2)
          | Ok false => run_loop cls gr fuel' g' state' w2
          end
      end
  end.

(** A value handed to [setattr]: a list of messages or any other value. *)
Inductive attr_value : Type :=
| AMessages (l : list Message)
| AValue (v : json).

(** [bool(value)]. *)
Definition attr_truth (value : attr_value) : bool :=
  match value with
  | AMessages l => truthy l
  | AValue v => truth_value v
  end.

(** [setattr(state, key, value)]: Python stores any value under any name
    and checks nothing.  What [State] keeps of the assignment: the
    transcript; of the step-budget flag, which the module only ever reads
    in a condition, the truth value of what was stored; any further
    attribute with its value.  Two assignments have no place in [State]: a
    value that is not a list of messages as the transcript, and a list of
    messages as a further attribute.  There the model stops. *)
Definition setattr (state : State) (key : string) (value : attr_value)
  : result State :=
  if String.eqb key "messages" then
    match value with
    | AMessages l =>
        Ok {| messages := l; is_last_step := is_last_step state;
              extra := extra state |}
    | AValue (JArr []) =>
        Ok {| messages := []; is_last_step := is_last_step state;
              extra := extra state |}
    | AValue _ => Raise (NotModelled "messages set to another value")
    end
  else if String.eqb key "is_last_step" then
    Ok {| messages := messages state; is_last_step := attr_truth value;
          extra := extra state |}
  else
    match value with
    | AValue v =>
        Ok {| messages := messages state; is_last_step := is_last_step state;
              extra := dict_set (extra state) key v |}
    | AMessages [] =>
        Ok {| messages := messages state; is_last_step := is_last_step state;
              extra := dict_set (extra state) key (JArr []) |}
    | AMessages (_ :: _) =>
        Raise (NotModelled "a list of messages as a further attribute")
    end.

Fixpoint apply_modifications (state : State) (items : dict attr_value)
  : result State :=
  match items with
  | [] => Ok state
  | (key, value) :: rest =>
      state' <- setattr state key value ;;
      apply_modifications state' rest
  end.

(** The state a run starts from: fresh, or a checkpoint with its
    modifications. *)
Definition initial_state (cls : StateClass) (initial_input : InputState)
  (resume_checkpoint_id : option string)
  (modifications : option (dict attr_value)) (w : World) : result State :=
  match resume_checkpoint_id with
  | Some id =>
      match dict_get (CHECKPOINTS w) id with
      | None => Raise (ValueError ("Checkpoint " ++ id ++ " not found"))
      | Some serialized_state =>
          state <- deserialize_state cls serialized_state ;;
          match modifications with
          | Some items =>
              if truthy items then apply_modifications state items
              else Ok state
          | None => Ok state
          end
      end
  | None => Ok (new_state cls initial_input)
  end.

Definition run_agent_with_time_travel (cls : StateClass) (gr : Graph)
  (g0 : gstate gr) (fuel : nat) (initial_input : InputState)
  (resume_checkpoint_id : option string)
  (modifications : option (dict attr_value)) (w : World)
  : option (result State) * World :=
  match initial_state cls initial_input resume_checkpoint_id modifications w
  with
  | Raise e => (Some (Raise e), w)
  | Ok state =>
      match run_loop cls gr fuel g0 state w with
      | (Some (Ok final), w') =>
          let (_, w'') :=
            save_checkpoint cls "Final checkpoint saved: " final w' in
          (Some (Ok final), w'')
      | stopped => stopped
      end
  end.

Definition list_checkpoints (w : World) : list string :=
  dict_keys (CHECKPOINTS w).

(** ** The [State] class of the specification *)

Module StateSpec.

Definition role_name (r : Role) : string :=
  match r with
  | System => "system"
  | Human => "user"
  | AI => "assistant"
  | Tool => "tool"
  end.

Definition role_of_name (s : string) : result Role :=
  if String.eqb s "system" then Ok System
  else if String.eqb s "user" then Ok Human
  else if String.eqb s "assistant" then Ok AI
  else if String.eqb s "tool" then Ok Tool
  else Raise (ValueError s).

Definition field (d : dict json) (k : string) : result json :=
  match dict_get d k with
  | Some v => Ok v
  | None => Raise (KeyError k)
  end.

Fixpoint map_result {A B} (f : A -> result B) (l : list A)
  : result (list B) :=
  match l with
  | [] => Ok []
  | x :: r => y <- f x ;; ys <- map_result f r ;; Ok (y :: ys)
  end.

Definition tool_call_to_dict (tc : ToolCall) : json :=
  JObj [("name", JStr (tc_name tc)); ("arguments", tc_args tc)].

Definition tool_call_from_dict (j : json) : result ToolCall :=
  match j with
  | JObj d =>
      n <- field d "name" ;;
      a <- field d "arguments" ;;
      match n with
      | JStr s => Ok {| tc_name := s; tc_args := a |}
      | _ => Raise (TypeError "name")
      end
  | _ => Raise (TypeError "tool call")
  end.

Definition message_to_dict (m : Message) : json :=
  JObj [("role", JStr (role_name (role m)));
        ("content", JStr (content m));
        ("tool_calls", JArr (map tool_call_to_dict (tool_calls m)));
        ("id", match msg_id m with Some i => JStr i | None => JNull end)].

Definition message_from_dict (j : json) : result Message :=
  match j with
  | JObj d =>
      r <- field d "role" ;;
      c <- field d "content" ;;
      t <- field d "tool_calls" ;;
      i <- field d "id" ;;
      match r, c, t with
      | JStr rs, JStr cs, JArr ts =>
          r' <- role_of_name rs ;;
          ts' <- map_result tool_call_from_dict ts ;;
          match i with
          | JStr s =>
              Ok {| role := r'; content := cs; tool_calls := ts';
                    msg_id := Some s |}
          | JNull =>
              Ok {| role := r'; content := cs; tool_calls := ts';
                    msg_id := None |}
          | _ => Raise (TypeError "id")
          end
      | _, _, _ => Raise (TypeError "message")
      end
  | _ => Raise (TypeError "message")
  end.

(** The two fields the class declares; every other key of a snapshot is an
    attribute that was added to the object. *)
Definition declared (k : string) : bool :=
  String.eqb k "messages" || String.eqb k "is_last_step".

(** Modelled from the spec: [State.to_dict], which [serialize_state] calls
    and the repository does not define ("You need to implement to_dict() in
    State").  "Serializes State to a self-describing snapshot" holding
    "every State field": the message list with content, role and tool calls
    (and the identifier), the step-budget flag, and any extra fields. *)
Definition state_to_dict (s : State) : json :=
  JObj (("messages", JArr (map message_to_dict (messages s)))
          :: ("is_last_step", JBool (is_last_step s))
          :: extra s).

(** Modelled from the spec: [State.from_dict], which [deserialize_state]
    calls and the repository does not define: "deserializes and returns a
    State copy", reading back each field [state_to_dict] wrote. *)
Definition state_from_dict (j : json) : result State :=
  match j with
  | JObj d =>
      ms <- field d "messages" ;;
      b <- field d "is_last_step" ;;
      match ms, b with
      | JArr l, JBool flag =>
          ms' <- map_result message_from_dict l ;;
          Ok {| messages := ms'; is_last_step := flag;
                extra := filter (fun kv => negb (declared (fst kv))) d |}
      | _, _ => Raise (TypeError "state")
      end
  | _ => Raise (TypeError "state")
  end.

(** Modelled from the spec: [State(input=initial_input)], the constructor
    of a class the repository does not define: "build fresh State from
    initial input", with the step-budget flag not set and no extra field. *)
Definition state_of_input (i : InputState) : State :=
  {| messages := input_messages i; is_last_step := false; extra := [] |}.

Definition state_class : StateClass :=
  {| new_state := state_of_input;
     to_dict := state_to_dict;
     from_dict := state_from_dict |}.

(** A state whose snapshot keeps everything: the extra attributes have
    distinct names, none of them the name of a declared field, and their
    values and the arguments of the tool calls come back from JSON text as
    they went in ([wf_json]). *)
Definition wf_state (s : State) : Prop :=
  NoDup (dict_keys (extra s))
  /\ Forall (fun kv => declared (fst kv) = false /\ wf_json (snd kv)) (extra s)
  /\ Forall (fun m => Forall (fun tc => wf_json (tc_args tc)) (tool_calls m))
            (messages s).

End StateSpec.

(** ** Vocabulary of the properties *)

(** [needle] occurs in [text]. *)
Definition substring_of (needle text : string) : Prop :=
  exists before after, text = (before ++ needle ++ after)%string.

(** The specification's error kinds, as the exceptions the module raises. *)
Definition TypeKind (e : exn) : Prop :=
  exists got,
    e = ValueError ("Expected AIMessage in output edges, but got " ++ got).

Definition NotFoundKind (e : exn) : Prop :=
  exists id, e = ValueError ("Checkpoint " ++ id ++ " not found").

(** ["ckpt_<n>"]. *)
Definition checkpoint_name (n : nat) : string := "ckpt_" ++ str_of_nat n.

(** A store that only saves have written to: its keys are [ckpt_0],
    [ckpt_1], ... in this order. *)
Definition store_ok (store : dict string) : Prop :=
  dict_keys store = map checkpoint_name (seq 0 (List.length store)).

Fixpoint count_saved (t : list Event) : nat :=
  match t with
  | [] => 0
  | Saved _ _ :: r => S (count_saved r)
  | Executed _ :: r => count_saved r
  end.

Fixpoint count_executed (t : list Event) : nat :=
  match t with
  | [] => 0
  | Saved _ _ :: r => count_executed r
  | Executed _ :: r => S (count_executed r)
  end.

Fixpoint saved_ids (t : list Event) : list string :=
  match t with
  | [] => []
  | Saved id _ :: r => id :: saved_ids r
  | Executed _ :: r => saved_ids r
  end.

(** Every step in [t] comes right after a checkpoint of the state it
    runs on. *)
Fixpoint checkpointed (t : list Event) : Prop :=
  match t with
  | [] => True
  | Executed _ :: _ => False
  | Saved _ s :: r =>
      match r with
      | Executed s' :: r' => s' = s /\ checkpointed r'
      | _ => checkpointed r
      end
  end.

(** What the saves recorded in [t] wrote to the store. *)
Fixpoint saved_entries (cls : StateClass) (t : list Event) : dict string :=
  match t with
  | [] => []
  | Saved id s :: r => (id, serialize_state cls s) :: saved_entries cls r
  | Executed _ :: r => saved_entries cls r
  end.

(** The trace of the loop: rounds of one checkpoint and one step on the
    same state. *)
Inductive rounds : list Event -> Prop :=
| rounds_nil : rounds []
| rounds_cons id s t : rounds t -> rounds (Saved id s :: Executed s :: t).

(** The decoder, given enough fuel, reads [v] back from what the encoder
    wrote for it and leaves what follows. *)
Definition decodes (v : json) : Prop :=
  forall fuel rest,
    List.length (emit v) <= fuel ->
    at_delimiter rest = true ->
    parse_value fuel (emit v ++ rest) = Ok (v, rest).

(** The worlds a process can be in: the one it starts with, and the one
    any call of the runner leaves. *)
Inductive reachable (cls : StateClass) : World -> Prop :=
| reachable_start : reachable cls empty_world
| reachable_run w (gr : Graph) (g0 : gstate gr) fuel initial_input resume
    modifications :
    reachable cls w ->
    reachable cls
      (snd (run_agent_with_time_travel cls gr g0 fuel initial_input resume
              modifications w)).

(** The state an event is about. *)
Definition event_state (ev : Event) : State :=
  match ev with
  | Saved _ s => s
  | Executed s => s
  end.

(** [s] is [s0] with messages appended: same flag, same extra fields. *)
Definition extends (s0 s : State) : Prop :=
  (exists added, messages s = messages s0 ++ added)
  /\ is_last_step s = is_last_step s0
  /\ extra s = extra s0.

(** The world after one round of the loop on [state]: its checkpoint is
    stored and printed, its step is under way. *)
Definition after_round (cls : StateClass) (state : State) (w : World)
  : World :=
  log_step state (snd (save_checkpoint cls "Checkpoint saved: " state w)).

(** The rounds [t] take the world from [w] to [w']: each of them saves
    under the next identifier and runs its step in the world that the save
    leaves, whose store holds, under that identifier, the snapshot of the
    state the step runs on. *)
Inductive backed (cls : StateClass) : World -> list Event -> World -> Prop :=
| backed_nil w : backed cls w [] w
| backed_round w s t w' :
    dict_get (CHECKPOINTS (after_round cls s w))
      (next_checkpoint_id (CHECKPOINTS w))
    = Some (serialize_state cls s) ->
    backed cls (after_round cls s w) t w' ->
    backed cls w
      (Saved (next_checkpoint_id (CHECKPOINTS w)) s :: Executed s :: t) w'.

(** The lines the loop prints for the saves recorded in [t]. *)
Definition loop_lines (t : list Event) : list string :=
  map (fun id => ("Checkpoint saved: " ++ id)%string) (saved_ids t).

(** The claim about a run that the model keeps asking for tools in: it has
    returned a state whose last message is an assistant message with the
    fallback text. *)
Definition ends_with_fallback (outcome : option (result State)) : Prop :=
  exists final m,
    outcome = Some (Ok final)
    /\ last_item (messages final) = Ok m
    /\ role m = AI /\ content m = fallback_text.

(** A model call is due: the graph is at its start or has just run the
    tools. *)
Definition model_call_due (pos : Position) : Prop :=
  at_node pos = "__start__" \/ at_node pos = "tools".

(** The names a position of the compiled graph can have. *)
Definition known_node (n : string) : Prop :=
  n = "__start__" \/ n = "call_model" \/ n = "tools" \/ n = "human_review".

(** ** Scenarios *)

Module Scenario.

Definition search_call : ToolCall :=
  {| tc_name := "search"; tc_args := JObj [("query", JStr "weather")] |}.

Definition question : Message :=
  {| role := Human; content := "What is the weather?"; tool_calls := [];
     msg_id := None |}.

(** An assistant message that asks for a tool and says nothing else. *)
Definition wants_tool : Message :=
  {| role := AI; content := ""; tool_calls := [search_call];
     msg_id := Some "run-1" |}.

Definition leaks_password : Message :=
  AIMessage (Some "run-2") "my password is hunter2".

Definition tool_result : Message :=
  {| role := Tool; content := "sunny"; tool_calls := []; msg_id := None |}.

(** A model that always asks for the search tool, and a tool node that
    always answers. *)
Definition keen : Collaborators :=
  {| system_prompt := fun t => ("System time: " ++ t)%string;
     utc_now := fun k => str_of_nat k;
     chat_model := fun _ => Ok wants_tool;
     tool_node := fun _ => Ok [("messages", [tool_result])] |}.

Definition fresh : State :=
  {| messages := [question]; is_last_step := false; extra := [] |}.

Definition last_step : State :=
  {| messages := [question]; is_last_step := true; extra := [] |}.

Definition flagged : State :=
  {| messages := [question; leaks_password]; is_last_step := false;
     extra := [("attempt", JInt 2)] |}.

Definition benign_answer : Message :=
  AIMessage (Some "run-3") "It is sunny.".

Definition searches : Message :=
  {| role := AI; content := "Let me look that up.";
     tool_calls := [search_call]; msg_id := Some "run-4" |}.

Definition with_last (m : Message) : State :=
  {| messages := [question; m]; is_last_step := false; extra := [] |}.

(** Two messages, to be saved as the first checkpoint and resumed. *)
Definition two_messages : State :=
  {| messages := [question; searches]; is_last_step := false; extra := [] |}.

(** The state after the keen model's first answer. *)
Definition asked : State :=
  {| messages := [question; wants_tool]; is_last_step := false;
     extra := [] |}.

(** A fresh run with the keen model, stopped after [fuel] turns. *)
Definition keen_run (fuel : nat) : option (result State) * World :=
  run_agent_with_time_travel StateSpec.state_class (graph keen)
    start_position fuel {| input_messages := [question] |} None None
    empty_world.

(** A model that answers at once, without tools. *)
Definition direct : Collaborators :=
  {| system_prompt := fun t => t;
     utc_now := fun k => str_of_nat k;
     chat_model := fun _ => Ok benign_answer;
     tool_node := fun _ => Ok [("messages", [tool_result])] |}.

(** An answer that is flagged and asks for a tool as well. *)
Definition leaks_and_searches : Message :=
  {| role := AI; content := "Your PASSWORD is hunter2, let me verify.";
     tool_calls := [search_call]; msg_id := Some "run-5" |}.

Definition leaky : Collaborators :=
  {| system_prompt := fun t => t;
     utc_now := fun k => str_of_nat k;
     chat_model := fun _ => Ok leaks_and_searches;
     tool_node := fun _ => Ok [("messages", [tool_result])] |}.

(** A model that asks for the tool until a tool result is in front of
    it. *)
Definition once : Collaborators :=
  {| system_prompt := fun t => t;
     utc_now := fun k => str_of_nat k;
     chat_model :=
       fun input =>
         if (List.length input <? 4)%nat then Ok wants_tool
         else Ok benign_answer;
     tool_node := fun _ => Ok [("messages", [tool_result])] |}.

(** A model that cannot be reached. *)
Definition offline : Collaborators :=
  {| system_prompt := fun t => t;
     utc_now := fun k => str_of_nat k;
     chat_model := fun _ => Raise (ValueError "connection refused");
     tool_node := fun _ => Ok [("messages", [tool_result])] |}.

Definition offline_run (fuel : nat) : option (result State) * World :=
  run_agent_with_time_travel StateSpec.state_class (graph offline)
    start_position fuel {| input_messages := [question] |} None None
    empty_world.

Definition after_tool : State :=
  {| messages := [question; tool_result]; is_last_step := false;
     extra := [] |}.

(** A fresh run with the model whose every answer is flagged and asks for
    a tool. *)
Definition leaky_run (fuel : nat) : option (result State) * World :=
  run_agent_with_time_travel StateSpec.state_class (graph leaky)
    start_position fuel {| input_messages := [question] |} None None
    empty_world.

(** The graph after a model call and a run of the tools. *)
Definition after_tools : Position := {| at_node := "tools"; steps_run := 2 |}.

(** The transcript after one round of tools, on the last allowed step. *)
Definition informed_last_step : State :=
  {| messages := [question; wants_tool; tool_result]; is_last_step := true;
     extra := [] |}.

(** An extra attribute that holds a tuple. *)
Definition with_tuple : State :=
  {| messages := [question]; is_last_step := false;
     extra := [("window", JTuple [JInt 1; JInt 2])] |}.

(** Extra attributes of every kind that a snapshot keeps. *)
Definition with_extras : State :=
  {| messages := [question; searches; tool_result; benign_answer];
     is_last_step := true;
     extra := [("attempt", JInt (-2)); ("temperature", JFloat "0.5");
               ("limit", JFloat "Infinity"); ("user", JNull);
               ("tags", JArr [JStr "a"; JBool true; JFloat "1e-07"]);
               ("options", JObj [("depth", JInt 3); ("name", JStr "x")])] |}.

End Scenario.

(* ================================================================== *)
(** * Part II: properties *)
(* ================================================================== *)

(** ** Strings *)

Lemma prefix_app (p s : string) :
  prefix p s = true <-> exists rest, s = (p ++ rest)%string.
Proof.
  revert s. induction p as [|a p IH]; intros s.
  - split; [intros _; now exists s | destruct s; reflexivity].
  - destruct s as [|b s]; simpl.
    + split; [discriminate | intros [rest H]; discriminate].
    + destruct (Ascii.ascii_dec a b) as [->|Hab].
      * rewrite IH. split; intros [rest H]; exists rest.
        -- now rewrite H.
        -- now inversion H.
      * split; [discriminate | intros [rest H]; inversion H; congruence].
Qed.

Lemma str_in_substring (needle hay : string) :
  str_in needle hay = true <-> substring_of needle hay.
Proof.
  unfold substring_of. induction hay as [|c hay IH].
  - cbn [str_in]. rewrite orb_false_r, prefix_app. split.
    + intros [rest H]. now exists EmptyString, rest.
    + intros [[|a before] [after H]]; [now exists after|discriminate].
  - cbn [str_in]. rewrite orb_true_iff, IH, prefix_app. split.
    + intros [[rest H]|[before [after H]]].
      * now exists EmptyString, rest.
      * exists (String c before), after. simpl. now rewrite H.
    + intros [[|a before] [after H]].
      * left. now exists after.
      * right. exists before, after. simpl in H. now inversion H.
Qed.

Lemma last_item_snoc {A} (l : list A) (x : A) : last_item (l ++ [x]) = Ok x.
Proof. unfold last_item. now rewrite rev_app_distr. Qed.

Lemma last_item_ok {A} (l : list A) (x : A) :
  last_item l = Ok x <-> exists before, l = before ++ [x].
Proof.
  split.
  - unfold last_item. destruct (List.rev l) as [|y r] eqn:E; [discriminate|].
    intros H. injection H as ->. exists (List.rev r).
    rewrite <- (rev_involutive l), E. reflexivity.
  - intros [before ->]. apply last_item_snoc.
Qed.

Lemma last_item_nil {A} (l : list A) :
  (exists e, last_item l = Raise e) <-> l = [].
Proof.
  split.
  - destruct l as [|x l] using rev_ind; [reflexivity|].
    rewrite last_item_snoc. intros [e H]. discriminate.
  - intros ->. now eexists.
Qed.

(** ** The router *)

Lemma route_model_output_last (state : State) (m : Message) :
  last_item (messages state) = Ok m ->
  route_model_output state =
    if negb (isinstance_AIMessage m)
    then Raise (ValueError ("Expected AIMessage in output edges, but got "
                              ++ type_name (role m)))
    else if contains_sensitive_info m then Ok "human_review"
    else if truthy (tool_calls m) then Ok "tools"
    else Ok "__end__".
Proof. intros H. unfold route_model_output. now rewrite H. Qed.

Lemma isinstance_AIMessage_role (m : Message) :
  isinstance_AIMessage m = true <-> role m = AI.
Proof. unfold isinstance_AIMessage. destruct (role m); easy. Qed.

Lemma route_model_output_ai (state : State) (m : Message) :
  last_item (messages state) = Ok m ->
  role m = AI ->
  route_model_output state =
    Ok (if contains_sensitive_info m then "human_review"
        else if truthy (tool_calls m) then "tools"
        else "__end__").
Proof.
  intros Hlast Hrole. rewrite (route_model_output_last _ _ Hlast).
  apply isinstance_AIMessage_role in Hrole. rewrite Hrole. simpl.
  destruct (contains_sensitive_info m); [reflexivity|].
  destruct (truthy (tool_calls m)); reflexivity.
Qed.

(** C1: on a state whose last message [m] is an assistant message the
    router answers human-review when [m] is sensitive, else tool-execution
    when [m] carries a tool-call request, else terminate; and a state with
    the same last message gets the same answer.  The router is a function of
    the state that returns the decision and nothing else: it has no effect
    on the state. *)
Theorem route_model_output_priority :
  forall (state : State) (before : list Message) (m : Message),
    messages state = before ++ [m] ->
    role m = AI ->
    route_model_output state =
      Ok (if contains_sensitive_info m then "human_review"
          else if truthy (tool_calls m) then "tools"
          else "__end__")
    /\ (forall state' : State,
          last_item (messages state') = Ok m ->
          route_model_output state' = route_model_output state).
Proof.
  intros state before m Hm Hrole.
  assert (Hlast : last_item (messages state) = Ok m)
    by (rewrite Hm; apply last_item_snoc).
  split.
  - now apply route_model_output_ai.
  - intros state' Hlast'.
    now rewrite (route_model_output_last _ _ Hlast),
                (route_model_output_last _ _ Hlast').
Qed.

Lemma route_model_output_priority_witness :
  route_model_output Scenario.flagged = Ok "human_review"
  /\ (forall state' : State,
        last_item (messages state') = Ok Scenario.leaks_password ->
        route_model_output state' = route_model_output Scenario.flagged).
Proof.
  exact (route_model_output_priority Scenario.flagged [Scenario.question]
           Scenario.leaks_password eq_refl eq_refl).
Defined.

(** C9: when the last message is not an assistant message the router
    raises the [ValueError] that names the class it got (the TypeKind
    error); it returns a next node exactly when there is a last message and
    it is an assistant message. *)
Theorem route_model_output_type_error :
  forall state : State,
    (forall before m,
        messages state = before ++ [m] ->
        role m <> AI ->
        route_model_output state =
          Raise (ValueError ("Expected AIMessage in output edges, but got "
                               ++ type_name (role m)))
        /\ exists e, route_model_output state = Raise e /\ TypeKind e)
    /\ ((exists next, route_model_output state = Ok next)
        <-> exists before m, messages state = before ++ [m] /\ role m = AI).
Proof.
  intros state. split.
  - intros before m Hm Hrole.
    assert (Hlast : last_item (messages state) = Ok m)
      by (rewrite Hm; apply last_item_snoc).
    rewrite (route_model_output_last _ _ Hlast).
    assert (Hno : isinstance_AIMessage m = false).
    { destruct (isinstance_AIMessage m) eqn:E; [|reflexivity].
      now apply isinstance_AIMessage_role in E. }
    rewrite Hno. simpl. split; [reflexivity|].
    eexists. split; [reflexivity|]. now eexists.
  - split.
    + intros [next H]. unfold route_model_output in H.
      destruct (last_item (messages state)) as [m|e] eqn:Hlast;
        [|discriminate].
      apply last_item_ok in Hlast as [before Hm]. exists before, m.
      split; [exact Hm|]. simpl in H.
      destruct (isinstance_AIMessage m) eqn:E; [|discriminate].
      now apply isinstance_AIMessage_role.
    + intros (before & m & Hm & Hrole).
      eexists. apply route_model_output_ai; [|exact Hrole].
      rewrite Hm. apply last_item_snoc.
Qed.

Lemma route_model_output_type_error_witness :
  route_model_output Scenario.after_tool
  = Raise (ValueError "Expected AIMessage in output edges, but got ToolMessage").
Proof.
  refine (proj1 (proj1 (route_model_output_type_error Scenario.after_tool)
                   [Scenario.question] Scenario.tool_result eq_refl _)).
  discriminate.
Defined.

(** ** The keyword scan *)

(** C2: [contains_sensitive_info m] is true exactly when one of the four
    keywords occurs in the lowercased content of [m]; case is ignored, so a
    message whose content is "PASSWORD" matches. *)
Theorem contains_sensitive_info_iff :
  forall m : Message,
    (contains_sensitive_info m = true
     <-> exists keyword,
           In keyword ["suicide"; "kill myself"; "password"; "credentials"]
           /\ substring_of keyword (lower (content m)))
    /\ contains_sensitive_info
         {| role := role m; content := "PASSWORD";
            tool_calls := tool_calls m; msg_id := msg_id m |} = true.
Proof.
  intros m. split; [|reflexivity].
  unfold contains_sensitive_info, any. rewrite existsb_exists.
  split; intros [keyword [Hin H]]; exists keyword;
    (split; [exact Hin|]); now apply str_in_substring.
Qed.

(** ** The model-call node *)

(** C5: when the model answers [response], the node returns the fallback
    message with the identifier of [response] if this is the last allowed
    step and [response] asks for a tool, and [response] itself in every
    other case. *)
Theorem call_model_budget :
  forall (env : Collaborators) (tick : nat) (state : State)
         (response : Message),
    chat_model env
      (system_entry (system_prompt env (utc_now env tick)) :: messages state)
    = Ok response ->
    (is_last_step state = true -> tool_calls response <> [] ->
     call_model env tick state =
       Ok [("messages",
            [{| role := AI; content := fallback_text; tool_calls := [];
                msg_id := msg_id response |}])])
    /\ (~ (is_last_step state = true /\ tool_calls response <> []) ->
        call_model env tick state = Ok [("messages", [response])]).
Proof.
  intros env tick state response Hmodel.
  unfold call_model. rewrite Hmodel. simpl. split.
  - intros -> Hcalls. destruct (tool_calls response); [contradiction|].
    reflexivity.
  - intros Hnot. destruct (is_last_step state); [|reflexivity].
    destruct (tool_calls response); [reflexivity|].
    exfalso. apply Hnot. split; [reflexivity|discriminate].
Qed.

Lemma call_model_budget_witness :
  call_model Scenario.keen 0 Scenario.last_step
  = Ok [("messages", [AIMessage (Some "run-1") fallback_text])]
  /\ call_model Scenario.keen 0 Scenario.fresh
     = Ok [("messages", [Scenario.wants_tool])].
Proof.
  split.
  - apply (proj1 (call_model_budget Scenario.keen 0 Scenario.last_step
                    Scenario.wants_tool eq_refl));
      [reflexivity | discriminate].
  - apply (proj2 (call_model_budget Scenario.keen 0 Scenario.fresh
                    Scenario.wants_tool eq_refl)).
    intros [H _]. discriminate H.
Defined.

(** ** The human-review node *)

(** C10: on a state that has a last message [m] the human-review node
    returns the one-element list [[m]]; merged by the runner, the transcript
    ends with [m] twice, what stood before [m] is as it was, and so are the
    step-budget flag and the extra fields. *)
Theorem human_review_duplicates_last :
  forall (state : State) (before : list Message) (m : Message),
    messages state = before ++ [m] ->
    human_review state = Ok [("messages", [m])]
    /\ merge_output state [("messages", [m])] =
         {| messages := before ++ [m; m];
            is_last_step := is_last_step state;
            extra := extra state |}.
Proof.
  intros state before m Hm. split.
  - unfold human_review. rewrite Hm, last_item_snoc. reflexivity.
  - unfold merge_output. simpl. rewrite Hm, <- app_assoc. reflexivity.
Qed.

Lemma human_review_duplicates_last_witness :
  human_review Scenario.flagged = Ok [("messages", [Scenario.leaks_password])]
  /\ merge_output Scenario.flagged [("messages", [Scenario.leaks_password])] =
       {| messages := [Scenario.question; Scenario.leaks_password;
                       Scenario.leaks_password];
          is_last_step := false;
          extra := [("attempt", JInt 2)] |}.
Proof.
  exact (human_review_duplicates_last Scenario.flagged [Scenario.question]
           Scenario.leaks_password eq_refl).
Defined.

(** ** Checkpoint identifiers and the store *)

Lemma uint_chars_inj (d d' : Decimal.uint) :
  uint_chars d = uint_chars d' -> d = d'.
Proof.
  revert d'. induction d; destruct d'; simpl; intros H;
    try discriminate; try reflexivity;
    injection H as H; f_equal; auto.
Qed.

Lemma string_of_list_ascii_inj (a b : list ascii) :
  string_of_list_ascii a = string_of_list_ascii b -> a = b.
Proof.
  intros H. apply (f_equal list_ascii_of_string) in H.
  now rewrite !list_ascii_of_string_of_list_ascii in H.
Qed.

Lemma str_of_nat_inj (n m : nat) : str_of_nat n = str_of_nat m -> n = m.
Proof.
  unfold str_of_nat. intros H.
  apply string_of_list_ascii_inj, uint_chars_inj in H.
  now apply DecimalNat.Unsigned.to_uint_inj.
Qed.

Lemma checkpoint_name_inj (n m : nat) :
  checkpoint_name n = checkpoint_name m -> n = m.
Proof.
  unfold checkpoint_name. simpl. intros H. injection H as H.
  now apply str_of_nat_inj.
Qed.

Lemma dict_set_fresh {V} (d : dict V) (k : string) (v : V) :
  ~ In k (dict_keys d) -> dict_set d k v = d ++ [(k, v)].
Proof.
  induction d as [|[k' v'] d IH]; simpl; intros Hk; [reflexivity|].
  destruct (String.eqb_spec k' k) as [->|Hne].
  - exfalso. apply Hk. now left.
  - rewrite IH; [reflexivity|]. intros Hin. apply Hk. now right.
Qed.

Lemma dict_get_app_l {V} (d d' : dict V) (k : string) (v : V) :
  dict_get d k = Some v -> dict_get (d ++ d') k = Some v.
Proof.
  induction d as [|[k' v'] d IH]; simpl; [discriminate|].
  destruct (String.eqb k' k); auto.
Qed.

Lemma dict_get_app_r {V} (d d' : dict V) (k : string) :
  ~ In k (dict_keys d) -> dict_get (d ++ d') k = dict_get d' k.
Proof.
  induction d as [|[k' v'] d IH]; simpl; intros Hk; [reflexivity|].
  destruct (String.eqb_spec k' k) as [->|Hne].
  - exfalso. apply Hk. now left.
  - apply IH. intros Hin. apply Hk. now right.
Qed.

Lemma store_ok_nil : store_ok [].
Proof. reflexivity. Qed.

Lemma store_ok_next_fresh (store : dict string) :
  store_ok store -> ~ In (next_checkpoint_id store) (dict_keys store).
Proof.
  unfold store_ok. intros Hok Hin. rewrite Hok in Hin.
  apply in_map_iff in Hin as (i & Heq & Hi).
  apply checkpoint_name_inj in Heq. apply in_seq in Hi. lia.
Qed.

Lemma store_ok_snoc (store : dict string) (snapshot : string) :
  store_ok store ->
  store_ok (store ++ [(next_checkpoint_id store, snapshot)]).
Proof.
  unfold store_ok, dict_keys. intros Hok.
  rewrite map_app, length_app, Hok. simpl.
  rewrite Nat.add_1_r, seq_S, map_app. reflexivity.
Qed.

Lemma save_checkpoint_ok (cls : StateClass) (label : string)
  (state : State) (w : World) :
  store_ok (CHECKPOINTS w) ->
  CHECKPOINTS (snd (save_checkpoint cls label state w)) =
    CHECKPOINTS w
      ++ [(checkpoint_name (List.length (CHECKPOINTS w)),
           serialize_state cls state)].
Proof.
  intros Hok. simpl. apply dict_set_fresh. now apply store_ok_next_fresh.
Qed.

(** ** The loop and its trace *)

Lemma rounds_counts (t : list Event) :
  rounds t -> count_saved t = count_executed t.
Proof. induction 1; simpl; congruence. Qed.

Lemma rounds_checkpointed (t : list Event) (tail : list Event) :
  rounds t -> checkpointed tail -> checkpointed (t ++ tail).
Proof. induction 1; simpl; auto. Qed.

Lemma count_saved_app (t u : list Event) :
  count_saved (t ++ u) = count_saved t + count_saved u.
Proof. induction t as [|[id s|s] t IH]; simpl; lia. Qed.

Lemma count_executed_app (t u : list Event) :
  count_executed (t ++ u) = count_executed t + count_executed u.
Proof. induction t as [|[id s|s] t IH]; simpl; lia. Qed.

Lemma saved_ids_app (t u : list Event) :
  saved_ids (t ++ u) = saved_ids t ++ saved_ids u.
Proof. induction t as [|[id s|s] t IH]; simpl; congruence. Qed.

Lemma saved_entries_app (cls : StateClass) (t u : list Event) :
  saved_entries cls (t ++ u) = saved_entries cls t ++ saved_entries cls u.
Proof. induction t as [|[id s|s] t IH]; simpl; congruence. Qed.

Lemma saved_entries_keys (cls : StateClass) (t : list Event) :
  dict_keys (saved_entries cls t) = saved_ids t.
Proof. induction t as [|[id s|s] t IH]; simpl; congruence. Qed.

Lemma saved_ids_length (t : list Event) :
  List.length (saved_ids t) = count_saved t.
Proof. induction t as [|[id s|s] t IH]; simpl; congruence. Qed.

(** The loop adds whole rounds to the trace, the first of them on the state
    it was entered with. *)
Lemma run_loop_trace (cls : StateClass) (gr : Graph) (fuel : nat) :
  forall (g : gstate gr) (state : State) (w : World),
    exists new,
      trace (snd (run_loop cls gr fuel g state w)) = trace w ++ new
      /\ rounds new
      /\ (fuel <> 0 ->
          exists rest,
            new = Saved (next_checkpoint_id (CHECKPOINTS w)) state
                    :: Executed state :: rest).
Proof.
  induction fuel as [|fuel IH]; intros g state w.
  - exists []. simpl. rewrite app_nil_r. repeat split; [constructor|easy].
  - cbn [run_loop save_checkpoint].
    set (id := next_checkpoint_id (CHECKPOINTS w)).
    set (w1 := {| CHECKPOINTS := _; stdout := _; trace := _ |}).
    set (w2 := log_step state w1).
    assert (Hw2 : trace w2 = trace w ++ [Saved id state; Executed state]).
    { subst w2 w1. simpl. now rewrite <- app_assoc. }
    assert (Hstop : exists new,
               trace w2 = trace w ++ new /\ rounds new
               /\ (S fuel <> 0 ->
                   exists rest, new = Saved id state :: Executed state :: rest)).
    { exists [Saved id state; Executed state].
      repeat split; [exact Hw2 | repeat constructor | now exists []]. }
    destruct (execute gr g state) as [[output g']|e]; [|exact Hstop].
    destruct (is_terminal gr g' (merge_output state output)) as [[|]|e];
      try exact Hstop.
    destruct (IH g' (merge_output state output) w2) as (new & Hnew & Hr & _).
    exists (Saved id state :: Executed state :: new).
    repeat split.
    + rewrite Hnew, Hw2, <- app_assoc. reflexivity.
    + now constructor.
    + intros _. now exists new.
Qed.

(** On a store that only saves have written to, the entries the loop adds
    are those of its saves, numbered on from the size of the store. *)
Lemma run_loop_store (cls : StateClass) (gr : Graph) (fuel : nat) :
  forall (g : gstate gr) (state : State) (w : World) (new : list Event),
    store_ok (CHECKPOINTS w) ->
    trace (snd (run_loop cls gr fuel g state w)) = trace w ++ new ->
    CHECKPOINTS (snd (run_loop cls gr fuel g state w)) =
      CHECKPOINTS w ++ saved_entries cls new
    /\ saved_ids new =
         map checkpoint_name
           (seq (List.length (CHECKPOINTS w)) (count_saved new)).
Proof.
  induction fuel as [|fuel IH]; intros g state w new Hok.
  - simpl. intros H.
    assert (new = []) as ->.
    { apply (app_inv_head (trace w)). now rewrite app_nil_r. }
    simpl. now rewrite app_nil_r.
  - cbn [run_loop].
    pose proof (save_checkpoint_ok cls "Checkpoint saved: " state w Hok)
      as Hsave.
    destruct (save_checkpoint cls "Checkpoint saved: " state w)
      as [id w1] eqn:Esave.
    assert (Hid : id = checkpoint_name (List.length (CHECKPOINTS w))).
    { unfold save_checkpoint in Esave. now injection Esave as <- _. }
    assert (Ht1 : trace w1 = trace w ++ [Saved id state]).
    { unfold save_checkpoint in Esave. now injection Esave as <- <-. }
    simpl in Hsave.
    set (w2 := log_step state w1).
    assert (Hw2 : trace w2 = trace w ++ [Saved id state; Executed state]).
    { subst w2. simpl. rewrite Ht1, <- app_assoc. reflexivity. }
    assert (Hc2 : CHECKPOINTS w2 =
                  CHECKPOINTS w ++ [(id, serialize_state cls state)]).
    { subst w2. simpl. now rewrite Hsave, Hid. }
    assert (Hstop :
              trace w2 = trace w ++ new ->
              CHECKPOINTS w2 = CHECKPOINTS w ++ saved_entries cls new
              /\ saved_ids new =
                   map checkpoint_name
                     (seq (List.length (CHECKPOINTS w)) (count_saved new))).
    { intros H. rewrite Hw2 in H. apply app_inv_head in H. subst new.
      simpl. split; [exact Hc2 | now rewrite Hid]. }
    destruct (execute gr g state) as [[output g']|e]; [|exact Hstop].
    destruct (is_terminal gr g' (merge_output state output)) as [[|]|e];
      try exact Hstop.
    intros H.
    destruct (run_loop_trace cls gr fuel g' (merge_output state output) w2)
      as (more & Hmore & _).
    assert (new = Saved id state :: Executed state :: more) as ->.
    { apply (app_inv_head (trace w)). rewrite <- H, Hmore, Hw2.
      now rewrite <- app_assoc. }
    assert (Hok2 : store_ok (CHECKPOINTS w2)).
    { rewrite Hc2, Hid. now apply store_ok_snoc. }
    destruct (IH g' (merge_output state output) w2 more Hok2 Hmore)
      as [Hst Hids].
    split.
    + rewrite Hst, Hc2, <- app_assoc. reflexivity.
    + simpl. rewrite Hids, Hc2, length_app, Nat.add_1_r, Hid. reflexivity.
Qed.

Lemma store_ok_NoDup (store : dict string) :
  store_ok store -> NoDup (dict_keys store).
Proof.
  unfold store_ok. intros ->.
  apply Finite.Injective_map_NoDup; [|apply seq_NoDup].
  intros n m. apply checkpoint_name_inj.
Qed.

Lemma store_ok_app (store : dict string) (more : dict string) (k : nat) :
  store_ok store ->
  dict_keys more = map checkpoint_name (seq (List.length store) k) ->
  store_ok (store ++ more).
Proof.
  unfold store_ok, dict_keys. intros Hok Hmore.
  assert (Hlen : List.length more = k).
  { rewrite <- (length_map fst more), Hmore, length_map. apply length_seq. }
  rewrite map_app, Hok, Hmore, length_app, Hlen, seq_app, map_app.
  reflexivity.
Qed.

(** ** Reasoning about the loop *)

Lemma after_round_trace (cls : StateClass) (state : State) (w : World) :
  trace (after_round cls state w) =
    trace w ++ [Saved (next_checkpoint_id (CHECKPOINTS w)) state;
                Executed state].
Proof. unfold after_round. simpl. now rewrite <- app_assoc. Qed.

Lemma after_round_store (cls : StateClass) (state : State) (w : World) :
  CHECKPOINTS (after_round cls state w) =
    dict_set (CHECKPOINTS w) (next_checkpoint_id (CHECKPOINTS w))
      (serialize_state cls state).
Proof. reflexivity. Qed.

Lemma after_round_stdout (cls : StateClass) (state : State) (w : World) :
  stdout (after_round cls state w) =
    stdout w
      ++ [("Checkpoint saved: " ++ next_checkpoint_id (CHECKPOINTS w))%string].
Proof. reflexivity. Qed.

(** One turn of the loop, by what the graph answers. *)
Lemma run_loop_continue (cls : StateClass) (gr : Graph) (fuel : nat)
  (g g' : gstate gr) (state : State) (output : Output) (w : World) :
  execute gr g state = Ok (output, g') ->
  is_terminal gr g' (merge_output state output) = Ok false ->
  run_loop cls gr (S fuel) g state w =
    run_loop cls gr fuel g' (merge_output state output)
      (after_round cls state w).
Proof. intros He Ht. cbn [run_loop save_checkpoint]. now rewrite He, Ht. Qed.

Lemma run_loop_break (cls : StateClass) (gr : Graph) (fuel : nat)
  (g g' : gstate gr) (state : State) (output : Output) (w : World) :
  execute gr g state = Ok (output, g') ->
  is_terminal gr g' (merge_output state output) = Ok true ->
  run_loop cls gr (S fuel) g state w =
    (Some (Ok (merge_output state output)), after_round cls state w).
Proof. intros He Ht. cbn [run_loop save_checkpoint]. now rewrite He, Ht. Qed.

(** A property of the loop follows from four cases: the fuel is spent, the
    step or the terminal test raises, the loop is left, the loop goes on. *)
Lemma run_loop_cases (cls : StateClass) (gr : Graph)
  (Q : State -> World -> option (result State) * World -> Prop) :
  (forall state w, Q state w (None, w)) ->
  (forall state w e, Q state w (Some (Raise e), after_round cls state w)) ->
  (forall state w output,
      Q state w (Some (Ok (merge_output state output)),
                 after_round cls state w)) ->
  (forall state w output res,
      Q (merge_output state output) (after_round cls state w) res ->
      Q state w res) ->
  forall fuel (g : gstate gr) state w,
    Q state w (run_loop cls gr fuel g state w).
Proof.
  intros Hout Hraise Hbreak Hnext.
  induction fuel as [|fuel IH]; intros g state w; [apply Hout|].
  cbn [run_loop save_checkpoint].
  change {| CHECKPOINTS := CHECKPOINTS
                             (log_step state
                                (snd (save_checkpoint cls "Checkpoint saved: "
                                        state w)));
            stdout := _; trace := _ |}
    with (after_round cls state w).
  destruct (execute gr g state) as [[output g']|e]; [|apply Hraise].
  destruct (is_terminal gr g' (merge_output state output)) as [[|]|e].
  - apply Hbreak.
  - apply Hnext with (output := output). apply IH.
  - apply Hraise.
Qed.

(** ** The store, whatever it holds *)

Lemma dict_set_keys {V} (d : dict V) (k : string) (v : V) :
  exists more, dict_keys (dict_set d k v) = dict_keys d ++ more.
Proof.
  induction d as [|[k' v'] d [more IH]]; simpl.
  - now exists [k].
  - destruct (String.eqb k' k); simpl.
    + exists []. now rewrite app_nil_r.
    + exists more. now rewrite IH.
Qed.

Lemma dict_get_set_other {V} (d : dict V) (k k' : string) (v : V) :
  k' <> k -> dict_get (dict_set d k v) k' = dict_get d k'.
Proof.
  intros Hne. induction d as [|[k0 v0] d IH]; simpl.
  - destruct (String.eqb_spec k k'); [congruence|reflexivity].
  - destruct (String.eqb_spec k0 k) as [->|Hk]; simpl.
    + destruct (String.eqb_spec k k'); [congruence|reflexivity].
    + now rewrite IH.
Qed.

Lemma dict_get_set_same {V} (d : dict V) (k : string) (v : V) :
  dict_get (dict_set d k v) k = Some v.
Proof.
  induction d as [|[k0 v0] d IH]; simpl.
  - now rewrite String.eqb_refl.
  - destruct (String.eqb_spec k0 k) as [->|Hk]; simpl.
    + now rewrite String.eqb_refl.
    + destruct (String.eqb_spec k0 k); [congruence|exact IH].
Qed.

Lemma dict_set_present {V} (d : dict V) (k : string) (v : V) :
  In k (dict_keys d) ->
  dict_keys (dict_set d k v) = dict_keys d
  /\ List.length (dict_set d k v) = List.length d.
Proof.
  induction d as [|[k0 v0] d IH]; simpl; [contradiction|].
  intros Hin. destruct (String.eqb_spec k0 k) as [->|Hk]; simpl.
  - now split.
  - destruct Hin as [H|H]; [congruence|].
    destruct (IH H) as [IH1 IH2]. split; congruence.
Qed.

(** ** The runner *)

(** What any call of the runner leaves behind. *)
Lemma run_agent_world (cls : StateClass) (gr : Graph) (g0 : gstate gr)
  (fuel : nat) (initial_input : InputState) (resume : option string)
  (modifications : option (dict attr_value)) (w : World) :
  let run := run_agent_with_time_travel cls gr g0 fuel initial_input resume
               modifications w in
  exists new,
    trace (snd run) = trace w ++ new
    /\ match fst run with
       | Some (Ok final) =>
           exists id body, new = body ++ [Saved id final] /\ rounds body
       | _ => rounds new
       end
    /\ (store_ok (CHECKPOINTS w) ->
        CHECKPOINTS (snd run) = CHECKPOINTS w ++ saved_entries cls new
        /\ saved_ids new =
             map checkpoint_name
               (seq (List.length (CHECKPOINTS w)) (count_saved new)))
    /\ (forall state0,
          initial_state cls initial_input resume modifications w = Ok state0 ->
          fuel <> 0 ->
          exists rest,
            new = Saved (next_checkpoint_id (CHECKPOINTS w)) state0 :: rest).
Proof.
  cbv zeta. unfold run_agent_with_time_travel.
  destruct (initial_state cls initial_input resume modifications w)
    as [state0|e] eqn:Einit.
  2:{ exists []. simpl. rewrite !app_nil_r.
      repeat split; [constructor | discriminate]. }
  destruct (run_loop_trace cls gr fuel g0 state0 w) as (new & Hnew & Hr & Hfirst).
  pose proof (run_loop_store cls gr fuel g0 state0 w new) as Hstore.
  destruct (run_loop cls gr fuel g0 state0 w) as [[[final|e]|] w'] eqn:Eloop;
    simpl in Hnew, Hstore.
  - (* the loop was left on a terminal state: the final checkpoint *)
    cbn [save_checkpoint fst snd trace CHECKPOINTS].
    exists (new ++ [Saved (next_checkpoint_id (CHECKPOINTS w')) final]).
    split; [now rewrite Hnew, app_assoc|].
    split; [now exists (next_checkpoint_id (CHECKPOINTS w')), new|].
    split.
    + intros Hok. destruct (Hstore Hok Hnew) as [Hst Hids].
      assert (Hok' : store_ok (CHECKPOINTS w')).
      { rewrite Hst. apply store_ok_app with (k := count_saved new);
          [exact Hok|]. now rewrite saved_entries_keys. }
      rewrite dict_set_fresh by now apply store_ok_next_fresh.
      rewrite saved_entries_app, saved_ids_app, count_saved_app. simpl.
      split; [now rewrite Hst, <- app_assoc|].
      rewrite seq_app, map_app, Hids. simpl. f_equal.
      unfold next_checkpoint_id, checkpoint_name.
      rewrite Hst, length_app.
      rewrite <- (saved_entries_keys cls new) in Hids.
      apply (f_equal (@List.length string)) in Hids.
      unfold dict_keys in Hids.
      rewrite !length_map, length_seq in Hids. now rewrite Hids.
    + intros s0 Hs0 Hfuel. injection Hs0 as <-.
      destruct (Hfirst Hfuel) as [rest ->]. eexists. reflexivity.
  - exists new. simpl. repeat split; try exact Hnew; try exact Hr.
    + now apply Hstore.
    + now apply Hstore.
    + intros s0 Hs0 Hfuel. injection Hs0 as <-.
      destruct (Hfirst Hfuel) as [rest ->]. eexists. reflexivity.
  - exists new. simpl. repeat split; try exact Hnew; try exact Hr.
    + now apply Hstore.
    + now apply Hstore.
    + intros s0 Hs0 Hfuel. injection Hs0 as <-.
      destruct (Hfirst Hfuel) as [rest ->]. eexists. reflexivity.
Qed.

(** Every call of the runner leaves a store that only saves have written
    to. *)
Lemma run_agent_store_ok (cls : StateClass) (gr : Graph) (g0 : gstate gr)
  (fuel : nat) (initial_input : InputState) (resume : option string)
  (modifications : option (dict attr_value)) (w : World) :
  store_ok (CHECKPOINTS w) ->
  store_ok
    (CHECKPOINTS
       (snd (run_agent_with_time_travel cls gr g0 fuel initial_input resume
               modifications w))).
Proof.
  intros Hok.
  destruct (run_agent_world cls gr g0 fuel initial_input resume
              modifications w) as (new & _ & _ & Hstore & _).
  destruct (Hstore Hok) as [Hst Hids]. rewrite Hst.
  apply store_ok_app with (k := count_saved new); [exact Hok|].
  now rewrite saved_entries_keys.
Qed.

Lemma reachable_store_ok (cls : StateClass) (w : World) :
  reachable cls w -> store_ok (CHECKPOINTS w).
Proof.
  induction 1; [apply store_ok_nil | now apply run_agent_store_ok].
Qed.

(** Every turn of the loop stores the snapshot of its state before it runs
    the step. *)
Lemma run_loop_backed (cls : StateClass) (gr : Graph) (fuel : nat)
  (g : gstate gr) (state : State) (w : World) :
  exists new,
    trace (snd (run_loop cls gr fuel g state w)) = trace w ++ new
    /\ rounds new
    /\ backed cls w new (snd (run_loop cls gr fuel g state w)).
Proof.
  assert (Hone : forall s0 w0,
             backed cls w0
               [Saved (next_checkpoint_id (CHECKPOINTS w0)) s0; Executed s0]
               (after_round cls s0 w0)).
  { intros s0 w0. apply backed_round.
    - rewrite after_round_store. apply dict_get_set_same.
    - apply backed_nil. }
  apply (run_loop_cases cls gr
           (fun _ w res =>
              exists new,
                trace (snd res) = trace w ++ new
                /\ rounds new /\ backed cls w new (snd res))).
  - intros s0 w0. exists []. simpl. rewrite app_nil_r.
    split; [reflexivity|]. split; constructor.
  - intros s0 w0 e. eexists. simpl snd.
    split; [apply after_round_trace|].
    split; [repeat constructor | apply Hone].
  - intros s0 w0 output. eexists. simpl snd.
    split; [apply after_round_trace|].
    split; [repeat constructor | apply Hone].
  - intros s0 w0 output res (new & Htrace & Hr & Hb).
    exists (Saved (next_checkpoint_id (CHECKPOINTS w0)) s0
              :: Executed s0 :: new).
    split; [|split].
    + rewrite Htrace, after_round_trace, <- app_assoc. reflexivity.
    + now constructor.
    + apply backed_round; [|exact Hb].
      rewrite after_round_store. apply dict_get_set_same.
Qed.


(** C8: a call that asks to resume from an identifier that is not in the
    store raises the "not found" [ValueError] (the NotFoundKind error) and
    returns the world as it found it: no step, no checkpoint, the store
    unchanged. *)
Theorem resume_unknown_checkpoint :
  forall (cls : StateClass) (gr : Graph) (g0 : gstate gr) (fuel : nat)
         (initial_input : InputState) (id : string)
         (modifications : option (dict attr_value)) (w : World),
    ~ In id (list_checkpoints w) ->
    run_agent_with_time_travel cls gr g0 fuel initial_input (Some id)
      modifications w
    = (Some (Raise (ValueError ("Checkpoint " ++ id ++ " not found"))), w)
    /\ NotFoundKind (ValueError ("Checkpoint " ++ id ++ " not found")).
Proof.
  intros cls gr g0 fuel initial_input id modifications w Habsent.
  split; [|now exists id].
  unfold run_agent_with_time_travel, initial_state.
  replace (dict_get (CHECKPOINTS w) id) with (@None string); [reflexivity|].
  symmetry. rewrite <- (app_nil_r (CHECKPOINTS w)).
  now rewrite dict_get_app_r.
Qed.

Lemma resume_unknown_checkpoint_witness :
  run_agent_with_time_travel StateSpec.state_class (graph Scenario.keen)
    start_position 5 {| input_messages := [Scenario.question] |}
    (Some "ckpt_7") None empty_world
  = (Some (Raise (ValueError "Checkpoint ckpt_7 not found")), empty_world)
  /\ NotFoundKind (ValueError "Checkpoint ckpt_7 not found").
Proof.
  apply (resume_unknown_checkpoint StateSpec.state_class
           (graph Scenario.keen) start_position 5
           {| input_messages := [Scenario.question] |} "ckpt_7" None
           empty_world).
  simpl. tauto.
Defined.

(** C4: in every world the process can be in, a save takes the identifier
    [ckpt_<n>] with [n] the size of the store, which is not yet in it, and
    adds its entry at the end, every earlier entry staying as it is; after
    any call of the runner the store is the old one followed by the entries
    of the saves of the call, and [list_checkpoints] is [ckpt_0], [ckpt_1],
    ... without repetition, as many as saves were made before and during
    the call.  In particular a run resumed from [ckpt_0] in a store that
    holds only [ckpt_0] saves first under [ckpt_1], and [ckpt_0] keeps its
    snapshot. *)
Theorem checkpoint_ids_sequential :
  forall (cls : StateClass) (w : World),
    reachable cls w ->
    (forall (label : string) (state : State),
        let (id, w') := save_checkpoint cls label state w in
        id = checkpoint_name (List.length (CHECKPOINTS w))
        /\ ~ In id (list_checkpoints w)
        /\ CHECKPOINTS w' =
             CHECKPOINTS w ++ [(id, serialize_state cls state)]
        /\ list_checkpoints w' = list_checkpoints w ++ [id])
    /\ (forall (gr : Graph) (g0 : gstate gr) (fuel : nat)
               (initial_input : InputState) (resume : option string)
               (modifications : option (dict attr_value)),
          let (outcome, w') :=
            run_agent_with_time_travel cls gr g0 fuel initial_input resume
              modifications w in
          exists new,
            trace w' = trace w ++ new
            /\ CHECKPOINTS w' = CHECKPOINTS w ++ saved_entries cls new
            /\ store_ok (CHECKPOINTS w')
            /\ NoDup (list_checkpoints w')
            /\ list_checkpoints w' =
                 map checkpoint_name
                   (seq 0 (List.length (CHECKPOINTS w) + count_saved new))
            /\ List.length (list_checkpoints w') =
                 List.length (list_checkpoints w) + count_saved new)
    /\ (forall (gr : Graph) (g0 : gstate gr) (fuel : nat)
               (initial_input : InputState)
               (modifications : option (dict attr_value))
               (snapshot : string) (state0 : State),
          CHECKPOINTS w = [("ckpt_0", snapshot)] ->
          initial_state cls initial_input (Some "ckpt_0") modifications w
          = Ok state0 ->
          let (outcome, w') :=
            run_agent_with_time_travel cls gr g0 (S fuel) initial_input
              (Some "ckpt_0") modifications w in
          exists rest,
            trace w' = trace w ++ Saved "ckpt_1" state0 :: rest
            /\ dict_get (CHECKPOINTS w') "ckpt_0" = Some snapshot
            /\ dict_get (CHECKPOINTS w') "ckpt_1"
               = Some (serialize_state cls state0)).
Proof.
  intros cls w Hreach.
  pose proof (reachable_store_ok cls w Hreach) as Hok. split; [|split].
  - intros label state.
    pose proof (save_checkpoint_ok cls label state w Hok) as Hsave.
    destruct (save_checkpoint cls label state w) as [id w'] eqn:E.
    assert (Hid : id = checkpoint_name (List.length (CHECKPOINTS w)))
      by (unfold save_checkpoint in E; now injection E as <- _).
    simpl in Hsave. rewrite <- Hid in Hsave.
    split; [exact Hid|]. split.
    + rewrite Hid. now apply store_ok_next_fresh.
    + split; [exact Hsave|].
      unfold list_checkpoints, dict_keys. now rewrite Hsave, map_app.
  - intros gr g0 fuel initial_input resume modifications.
    pose proof (run_agent_world cls gr g0 fuel initial_input resume
                  modifications w) as H.
    cbv zeta in H.
    destruct (run_agent_with_time_travel cls gr g0 fuel initial_input resume
                modifications w) as [outcome w'].
    simpl in H. destruct H as (new & Htrace & _ & Hstore & _).
    destruct (Hstore Hok) as [Hst Hids].
    assert (Hok' : store_ok (CHECKPOINTS w')).
    { rewrite Hst. apply store_ok_app with (k := count_saved new);
        [exact Hok|]. now rewrite saved_entries_keys. }
    assert (Hlen : List.length (CHECKPOINTS w') =
                   List.length (CHECKPOINTS w) + count_saved new).
    { rewrite Hst, length_app. f_equal.
      rewrite <- (length_map fst (saved_entries cls new)).
      fold (dict_keys (saved_entries cls new)).
      now rewrite saved_entries_keys, saved_ids_length. }
    exists new. repeat split; try assumption.
    + now apply store_ok_NoDup.
    + unfold list_checkpoints. rewrite Hok'. now rewrite Hlen.
    + unfold list_checkpoints, dict_keys. now rewrite !length_map.
  - intros gr g0 fuel initial_input modifications snapshot state0 Hone Hinit.
    pose proof (run_agent_world cls gr g0 (S fuel) initial_input
                  (Some "ckpt_0") modifications w) as H.
    cbv zeta in H.
    destruct (run_agent_with_time_travel cls gr g0 (S fuel) initial_input
                (Some "ckpt_0") modifications w) as [outcome w'].
    simpl in H. destruct H as (new & Htrace & _ & Hstore & Hfirst).
    destruct (Hstore Hok) as [Hst _].
    destruct (Hfirst state0 Hinit (Nat.neq_succ_0 fuel)) as [rest Hnew].
    rewrite Hone in Hnew, Hst. exists rest.
    split; [now rewrite Htrace, Hnew|].
    rewrite Hst, Hnew. split; reflexivity.
Qed.

Lemma checkpoint_ids_sequential_witness :
  save_checkpoint StateSpec.state_class "Checkpoint saved: " Scenario.fresh
    empty_world
  = ("ckpt_0",
     {| CHECKPOINTS :=
          [("ckpt_0",
            serialize_state StateSpec.state_class Scenario.fresh)];
        stdout := ["Checkpoint saved: ckpt_0"];
        trace := [Saved "ckpt_0" Scenario.fresh] |})
  /\ fst (save_checkpoint StateSpec.state_class "Checkpoint saved: "
            Scenario.fresh empty_world)
     = checkpoint_name 0.
Proof.
  split; [reflexivity|].
  pose proof (proj1 (checkpoint_ids_sequential StateSpec.state_class
                       empty_world (reachable_start _))
                "Checkpoint saved: " Scenario.fresh) as H.
  destruct (save_checkpoint StateSpec.state_class "Checkpoint saved: "
              Scenario.fresh empty_world) as [id w'].
  exact (proj1 H).
Defined.

(** ** The step budget *)

(** The runner only appends messages: the step-budget flag of the state
    stays what it was when the loop was entered. *)
Lemma merge_output_keeps_flag (state : State) (output : Output) :
  is_last_step (merge_output state output) = is_last_step state.
Proof. unfold merge_output. now destruct (dict_get output "messages"). Qed.

Lemma fallback_routes_to_end (state : State) (id : option string) :
  route_model_output
    (merge_output state [("messages", [AIMessage id fallback_text])])
  = Ok "__end__".
Proof.
  rewrite (route_model_output_last _ (AIMessage id fallback_text))
    by apply last_item_snoc.
  reflexivity.
Qed.

Lemma execute_model (env : Collaborators) (pos : Position) (state : State)
  (out : Output) :
  at_node pos = "__start__" \/ at_node pos = "tools" ->
  call_model env (steps_run pos) state = Ok out ->
  execute (graph env) pos state
  = Ok (out, {| at_node := "call_model"; steps_run := S (steps_run pos) |}).
Proof.
  intros Hat Hcall. cbn [graph compile execute].
  unfold graph_execute, next_node.
  destruct Hat as [-> | ->]; simpl; now rewrite Hcall.
Qed.

Lemma execute_routed (env : Collaborators) (pos : Position) (state : State)
  (target : string) (node : nat -> State -> result Output) (out : Output) :
  at_node pos = "call_model" ->
  route_model_output state = Ok target ->
  String.eqb target "__end__" = false ->
  dict_get (nodes (builder env)) target = Some node ->
  node (steps_run pos) state = Ok out ->
  execute (graph env) pos state
  = Ok (out, {| at_node := target; steps_run := S (steps_run pos) |}).
Proof.
  intros Hat Hroute Hne Hnode Hout. cbn [graph compile execute].
  unfold graph_execute, next_node. rewrite Hat.
  cbn [builder conditional_edges dict_get String.eqb Ascii.eqb Bool.eqb].
  rewrite Hroute. cbn [bind]. now rewrite Hne, Hnode, Hout.
Qed.

Lemma terminal_after_model (env : Collaborators) (pos : Position)
  (state : State) (target : string) :
  at_node pos = "call_model" ->
  route_model_output state = Ok target ->
  is_terminal (graph env) pos state = Ok (String.eqb target "__end__").
Proof.
  intros Hat Hroute. cbn [graph compile is_terminal].
  unfold graph_is_terminal, next_node. rewrite Hat.
  cbn [builder conditional_edges dict_get String.eqb Ascii.eqb Bool.eqb].
  now rewrite Hroute.
Qed.

Lemma run_from (cls : StateClass) (gr : Graph) (g0 : gstate gr)
  (fuel : nat) (initial_input : InputState) (resume : option string)
  (modifications : option (dict attr_value)) (w w1 : World)
  (state final : State) :
  initial_state cls initial_input resume modifications w = Ok state ->
  run_loop cls gr fuel g0 state w = (Some (Ok final), w1) ->
  run_agent_with_time_travel cls gr g0 fuel initial_input resume
    modifications w
  = (Some (Ok final),
     snd (save_checkpoint cls "Final checkpoint saved: " final w1)).
Proof.
  intros Hinit Hloop. unfold run_agent_with_time_travel.
  now rewrite Hinit, Hloop.
Qed.

(** A flagged answer goes to human review, and the loop is left there. *)
Lemma run_loop_reviewed (env : Collaborators) (cls : StateClass)
  (fuel : nat) (state : State) (w : World) (m : Message) :
  chat_model env
    (system_entry (system_prompt env (utc_now env 0)) :: messages state)
  = Ok m ->
  role m = AI ->
  contains_sensitive_info m = true ->
  is_last_step state = false \/ tool_calls m = [] ->
  let reviewed :=
    {| messages := messages state ++ [m];
       is_last_step := is_last_step state;
       extra := extra state |} in
  run_loop cls (graph env) (S (S fuel)) start_position state w
  = (Some (Ok {| messages := (messages state ++ [m]) ++ [m];
                 is_last_step := is_last_step state;
                 extra := extra state |}),
     after_round cls reviewed (after_round cls state w)).
Proof.
  intros Hm Hrole Hflagged Hnofallback reviewed.
  assert (Hcall : call_model env 0 state = Ok [("messages", [m])]).
  { unfold call_model. rewrite Hm. cbn [bind].
    destruct Hnofallback as [-> | ->]; [reflexivity|].
    now rewrite andb_false_r. }
  assert (Hroute : route_model_output reviewed = Ok "human_review").
  { rewrite (route_model_output_ai _ m); [|apply last_item_snoc|exact Hrole].
    now rewrite Hflagged. }
  rewrite (run_loop_continue cls (graph env) (S fuel) start_position
             {| at_node := "call_model"; steps_run := 1 |} state
             [("messages", [m])] w).
  - apply (run_loop_break cls (graph env) fuel
             {| at_node := "call_model"; steps_run := 1 |}
             {| at_node := "human_review"; steps_run := 2 |} reviewed
             [("messages", [m])]).
    + apply (execute_routed env
               {| at_node := "call_model"; steps_run := 1 |} reviewed
               "human_review" (fun _ => human_review) [("messages", [m])]);
        try reflexivity; [exact Hroute|].
      unfold human_review, reviewed. cbn [messages].
      now rewrite last_item_snoc.
    + reflexivity.
  - apply (execute_model env start_position state [("messages", [m])]);
      [now left | exact Hcall].
  - apply (terminal_after_model env
             {| at_node := "call_model"; steps_run := 1 |}
             (merge_output state [("messages", [m])]) "human_review" eq_refl).
    exact Hroute.
Qed.




(** X1: With the flag set when the loop is entered, the first model call that
    asks for a tool is replaced by the fallback message, the router sends it
    to the end, and the run returns after this one step. *)
Theorem last_step_run_ends :
  forall (env : Collaborators) (cls : StateClass) (fuel : nat)
         (initial_input : InputState) (resume : option string)
         (modifications : option (dict attr_value)) (w : World)
         (state : State) (m : Message),
    initial_state cls initial_input resume modifications w = Ok state ->
    is_last_step state = true ->
    chat_model env
      (system_entry (system_prompt env (utc_now env 0)) :: messages state)
    = Ok m ->
    tool_calls m <> [] ->
    fst (run_agent_with_time_travel cls (graph env) start_position (S fuel)
           initial_input resume modifications w)
    = Some (Ok {| messages :=
                    messages state ++ [AIMessage (msg_id m) fallback_text];
                  is_last_step := true;
                  extra := extra state |}).
Proof.
  intros env cls fuel initial_input resume modifications w state m
         Hinit Hflag Hm Hcalls.
  unfold run_agent_with_time_travel. rewrite Hinit.
  assert (Hcall : call_model env 0 state
                  = Ok [("messages", [AIMessage (msg_id m) fallback_text])]).
  { unfold call_model. rewrite Hm, Hflag. simpl.
    destruct (tool_calls m); [contradiction|reflexivity]. }
  assert (Hexec : graph_execute (builder env) start_position state
                  = Ok ([("messages", [AIMessage (msg_id m) fallback_text])],
                        {| at_node := "call_model"; steps_run := 1 |})).
  { unfold graph_execute, next_node. simpl. now rewrite Hcall. }
  assert (Hterm : graph_is_terminal (builder env)
                    {| at_node := "call_model"; steps_run := 1 |}
                    (merge_output state
                       [("messages", [AIMessage (msg_id m) fallback_text])])
                  = Ok true).
  { unfold graph_is_terminal, next_node. simpl.
    rewrite (route_model_output_last _ (AIMessage (msg_id m) fallback_text))
      by apply last_item_snoc.
    reflexivity. }
  cbn [run_loop save_checkpoint graph compile execute is_terminal].
  rewrite Hexec, Hterm. cbn [fst]. unfold merge_output. simpl.
  now rewrite Hflag.
Qed.

Lemma last_step_run_ends_witness :
  fst (run_agent_with_time_travel StateSpec.state_class (graph Scenario.keen)
         start_position 3 {| input_messages := [] |} (Some "ckpt_0")
         (Some [("is_last_step", AValue (JBool true))])
         (snd (save_checkpoint StateSpec.state_class "Checkpoint saved: "
                 Scenario.fresh empty_world)))
  = Some (Ok {| messages :=
                  [Scenario.question;
                   AIMessage (Some "run-1") fallback_text];
                is_last_step := true;
                extra := [] |}).
Proof.
  apply (last_step_run_ends Scenario.keen StateSpec.state_class 2
           {| input_messages := [] |} (Some "ckpt_0")
           (Some [("is_last_step", AValue (JBool true))])
           (snd (save_checkpoint StateSpec.state_class "Checkpoint saved: "
                   Scenario.fresh empty_world))
           Scenario.last_step Scenario.wants_tool).
  - vm_compute. reflexivity.
  - reflexivity.
  - reflexivity.
  - discriminate.
Defined.

(** The routing scenarios of the specification. *)
Theorem routing_scenarios :
  route_model_output (Scenario.with_last Scenario.leaks_password)
  = Ok "human_review"
  /\ route_model_output (Scenario.with_last Scenario.searches) = Ok "tools"
  /\ route_model_output (Scenario.with_last Scenario.benign_answer)
     = Ok "__end__"
  /\ route_model_output (Scenario.with_last Scenario.tool_result)
     = Raise (ValueError
                "Expected AIMessage in output edges, but got ToolMessage").
Proof. repeat split. Qed.

(** The resume scenario of the specification: a state with two messages is
    saved as [ckpt_0]; resumed with the flag set, the state the run starts
    from has the two messages and the flag, and the next save is
    [ckpt_1]. *)
Theorem resume_scenario :
  let (id, w1) :=
    save_checkpoint StateSpec.state_class "Checkpoint saved: "
      Scenario.two_messages empty_world in
  id = "ckpt_0"
  /\ initial_state StateSpec.state_class {| input_messages := [] |}
       (Some "ckpt_0") (Some [("is_last_step", AValue (JBool true))]) w1
     = Ok {| messages := [Scenario.question; Scenario.searches];
             is_last_step := true; extra := [] |}
  /\ next_checkpoint_id (CHECKPOINTS w1) = "ckpt_1".
Proof. vm_compute. repeat split. Qed.

(** ** JSON: decoding what the encoder wrote *)

Lemma uint_chars_digits (d : Decimal.uint) :
  Forall (fun c => is_digit c = true) (uint_chars d).
Proof. induction d; constructor; auto. Qed.

Lemma scan_uint_chars (d : Decimal.uint) : scan_uint (uint_chars d) = (d, []).
Proof. induction d; simpl; try (rewrite IHd); reflexivity. Qed.

Lemma N_to_uint_nonnil (n : N) : N.to_uint n <> Decimal.Nil.
Proof.
  destruct n as [|p]; [discriminate|].
  apply DecimalPos.Unsigned.to_uint_nonnil.
Qed.

(** [str(n)] has no leading zero: it starts with [0] only when it is
    [0]. *)
Lemma N_to_uint_leading_zero (n : N) (d : Decimal.uint) :
  N.to_uint n = Decimal.D0 d -> d = Decimal.Nil.
Proof.
  intros H.
  pose proof (DecimalN.Unsigned.to_of (N.to_uint n)) as E.
  rewrite DecimalN.Unsigned.of_to, H, DecimalFacts.unorm_D0 in E.
  unfold Decimal.unorm in E.
  pose proof (DecimalFacts.nzhead_nonzero d) as Hnz.
  destruct (Decimal.nzhead d) as [|u|u|u|u|u|u|u|u|u|u] eqn:Hd;
    try discriminate E.
  - now injection E.
  - exfalso. now apply (Hnz u).
Qed.

Lemma ends_number_head (c : ascii) (rest : list ascii) :
  ends_number (c :: rest) = true ->
  is_digit c = false /\ Ascii.eqb c "."%char = false
  /\ Ascii.eqb c "e"%char = false /\ Ascii.eqb c "E"%char = false
  /\ Ascii.eqb c "+"%char = false /\ Ascii.eqb c "-"%char = false.
Proof.
  cbn [ends_number]. rewrite negb_true_iff, !orb_false_iff. tauto.
Qed.

Lemma at_delimiter_ends_number (rest : list ascii) :
  at_delimiter rest = true -> ends_number rest = true.
Proof.
  destruct rest as [|c rest]; [reflexivity|].
  destruct c as [[] [] [] [] [] [] [] []]; intros H;
    try discriminate H; reflexivity.
Qed.

Lemma span_digits_app (s rest : list ascii) :
  ends_number rest = true ->
  span_digits (s ++ rest)
  = (fst (span_digits s), snd (span_digits s) ++ rest).
Proof.
  intros Hrest. induction s as [|c s IH]; cbn [app span_digits fst snd].
  - destruct rest as [|c rest]; [reflexivity|].
    destruct (ends_number_head _ _ Hrest) as (H & _).
    cbn [span_digits]. now rewrite H.
  - destruct (is_digit c); [|reflexivity].
    rewrite IH. now destruct (span_digits s).
Qed.

Lemma span_digits_all (l : list ascii) :
  Forall (fun c => is_digit c = true) l -> span_digits l = (l, []).
Proof.
  induction 1 as [|c l Hc _ IH]; cbn [span_digits]; [reflexivity|].
  now rewrite Hc, IH.
Qed.

Lemma span_digits_eq (s : list ascii) :
  s = fst (span_digits s) ++ snd (span_digits s).
Proof.
  induction s as [|c s IH]; cbn [span_digits]; [reflexivity|].
  destruct (is_digit c); [|reflexivity].
  destruct (span_digits s). cbn [fst snd app] in *. now rewrite <- IH.
Qed.

Lemma scan_unsigned_app (s rest i r : list ascii) :
  ends_number rest = true ->
  scan_unsigned s = Some (i, r) ->
  scan_unsigned (s ++ rest) = Some (i, r ++ rest).
Proof.
  intros Hrest. destruct s as [|c s]; [discriminate|].
  cbn [scan_unsigned app]. destruct (Ascii.eqb c "0"%char).
  - intros H. now injection H as <- <-.
  - destruct (is_digit c); [|discriminate].
    rewrite (span_digits_app _ _ Hrest). destruct (span_digits s).
    intros H. now injection H as <- <-.
Qed.

Lemma scan_integer_app (s rest i r : list ascii) :
  ends_number rest = true ->
  scan_integer s = Some (i, r) ->
  scan_integer (s ++ rest) = Some (i, r ++ rest).
Proof.
  intros Hrest. destruct s as [|c s]; [discriminate|].
  cbn [scan_integer app]. destruct (Ascii.eqb c "-"%char).
  - destruct (scan_unsigned s) as [[ds r0]|] eqn:H; [|discriminate].
    rewrite (scan_unsigned_app _ _ _ _ Hrest H).
    intros E. now injection E as <- <-.
  - apply (scan_unsigned_app (c :: s) rest i r Hrest).
Qed.

Lemma scan_fraction_app (s rest : list ascii) :
  ends_number rest = true ->
  scan_fraction (s ++ rest)
  = (fst (scan_fraction s), snd (scan_fraction s) ++ rest).
Proof.
  intros Hrest. destruct s as [|c s].
  - destruct rest as [|c rest]; [reflexivity|].
    destruct (ends_number_head _ _ Hrest) as (_ & H & _).
    cbn [app scan_fraction]. now rewrite H.
  - cbn [app scan_fraction]. destruct (Ascii.eqb c "."%char); [|reflexivity].
    rewrite (span_digits_app _ _ Hrest).
    destruct (span_digits s) as [[|d ds] r]; reflexivity.
Qed.

Lemma scan_exponent_app (s rest : list ascii) :
  ends_number rest = true ->
  scan_exponent (s ++ rest)
  = (fst (scan_exponent s), snd (scan_exponent s) ++ rest).
Proof.
  intros Hrest. destruct s as [|e s].
  - destruct rest as [|c rest]; [reflexivity|].
    destruct (ends_number_head _ _ Hrest) as (_ & _ & H1 & H2 & _).
    cbn [app scan_exponent]. now rewrite H1, H2.
  - cbn [app scan_exponent].
    destruct (Ascii.eqb e "e"%char || Ascii.eqb e "E"%char)%bool;
      [|reflexivity].
    destruct s as [|c s].
    + cbn [app]. destruct rest as [|c rest]; [reflexivity|].
      destruct (ends_number_head _ _ Hrest) as (Hd & _ & _ & _ & H1 & H2).
      rewrite H1, H2. cbn [orb span_digits]. now rewrite Hd.
    + cbn [app].
      destruct (Ascii.eqb c "+"%char || Ascii.eqb c "-"%char)%bool.
      * rewrite (span_digits_app _ _ Hrest).
        destruct (span_digits s) as [[|d ds] r]; reflexivity.
      * change (c :: s ++ rest) with ((c :: s) ++ rest).
        rewrite (span_digits_app (c :: s) _ Hrest).
        destruct (span_digits (c :: s)) as [[|d ds] r]; reflexivity.
Qed.

(** What follows a number does not change how the number is read. *)
Lemma scan_number_app (s rest i f e r : list ascii) :
  ends_number rest = true ->
  scan_number s = Some (i, f, e, r) ->
  scan_number (s ++ rest) = Some (i, f, e, r ++ rest).
Proof.
  intros Hrest. unfold scan_number.
  destruct (scan_integer s) as [[i0 r1]|] eqn:Hi; [|discriminate].
  rewrite (scan_integer_app _ _ _ _ Hrest Hi).
  rewrite (scan_fraction_app _ _ Hrest).
  destruct (scan_fraction r1) as [f0 r2]. cbn [fst snd].
  rewrite (scan_exponent_app _ _ Hrest).
  destruct (scan_exponent r2) as [e0 r3]. cbn [fst snd].
  intros H. now injection H as <- <- <- <-.
Qed.

Lemma scan_unsigned_eq (s i r : list ascii) :
  scan_unsigned s = Some (i, r) -> s = i ++ r.
Proof.
  destruct s as [|c s]; [discriminate|]. cbn [scan_unsigned].
  destruct (Ascii.eqb c "0"%char).
  - intros H. now injection H as <- <-.
  - destruct (is_digit c); [|discriminate].
    pose proof (span_digits_eq s) as E. destruct (span_digits s).
    intros H. injection H as <- <-. simpl in *. now rewrite <- E.
Qed.

Lemma scan_integer_eq (s i r : list ascii) :
  scan_integer s = Some (i, r) -> s = i ++ r.
Proof.
  destruct s as [|c s]; [discriminate|]. cbn [scan_integer].
  destruct (Ascii.eqb c "-"%char).
  - destruct (scan_unsigned s) as [[ds r0]|] eqn:H; [|discriminate].
    intros E. injection E as <- <-. simpl.
    now rewrite <- (scan_unsigned_eq _ _ _ H).
  - apply scan_unsigned_eq.
Qed.

Lemma scan_fraction_eq (s : list ascii) :
  s = fst (scan_fraction s) ++ snd (scan_fraction s).
Proof.
  destruct s as [|c s]; [reflexivity|]. cbn [scan_fraction].
  destruct (Ascii.eqb c "."%char); [|reflexivity].
  pose proof (span_digits_eq s) as E.
  destruct (span_digits s) as [[|d ds] r]; [reflexivity|].
  simpl in *. now rewrite <- E.
Qed.

Lemma scan_exponent_eq (s : list ascii) :
  s = fst (scan_exponent s) ++ snd (scan_exponent s).
Proof.
  destruct s as [|e s]; [reflexivity|]. cbn [scan_exponent].
  destruct (Ascii.eqb e "e"%char || Ascii.eqb e "E"%char)%bool;
    [|reflexivity].
  destruct s as [|c s]; [reflexivity|].
  destruct (Ascii.eqb c "+"%char || Ascii.eqb c "-"%char)%bool.
  - pose proof (span_digits_eq s) as E.
    destruct (span_digits s) as [[|d ds] r]; [reflexivity|].
    simpl in *. now rewrite <- E.
  - pose proof (span_digits_eq (c :: s)) as E.
    destruct (span_digits (c :: s)) as [[|d ds] r]; [reflexivity|].
    simpl in *. now rewrite <- E.
Qed.

(** The three groups of a match, put together, are the text that was
    read. *)
Lemma scan_number_eq (s i f e r : list ascii) :
  scan_number s = Some (i, f, e, r) -> s = i ++ f ++ e ++ r.
Proof.
  unfold scan_number.
  destruct (scan_integer s) as [[i0 r1]|] eqn:Hi; [|discriminate].
  pose proof (scan_fraction_eq r1) as Ef.
  destruct (scan_fraction r1) as [f0 r2]. cbn [fst snd] in Ef.
  pose proof (scan_exponent_eq r2) as Ee.
  destruct (scan_exponent r2) as [e0 r3]. cbn [fst snd] in Ee.
  intros H. injection H as <- <- <- <-.
  now rewrite (scan_integer_eq _ _ _ Hi), Ef, Ee.
Qed.

Lemma scan_number_head (c : ascii) (s : list ascii) :
  scan_number (c :: s) <> None -> c = "-"%char \/ is_digit c = true.
Proof.
  unfold scan_number, scan_integer.
  destruct (Ascii.eqb_spec c "-"%char) as [->|_]; [now left|].
  intros H. right. unfold scan_unsigned in H.
  destruct (Ascii.eqb_spec c "0"%char) as [->|_]; [reflexivity|].
  destruct (is_digit c); [reflexivity | now contradiction H].
Qed.

(** A character that a number starts with starts nothing else. *)
Lemma number_starts_value (c : ascii) (s : list ascii) (fuel : nat) :
  c = "-"%char \/ is_digit c = true ->
  is_ws c = false /\ Ascii.eqb c "]"%char = false
  /\ parse_value (S fuel) (c :: s) = parse_number (c :: s).
Proof.
  destruct c as [[] [] [] [] [] [] [] []]; intros [H|H];
    try discriminate H; repeat split.
Qed.

Lemma scan_integer_uint (n : N) :
  scan_integer (uint_chars (N.to_uint n))
  = Some (uint_chars (N.to_uint n), []).
Proof.
  pose proof (N_to_uint_nonnil n) as Hnn.
  pose proof (N_to_uint_leading_zero n) as Hz.
  pose proof (uint_chars_digits (N.to_uint n)) as Hd.
  destruct (N.to_uint n) as [|u|u|u|u|u|u|u|u|u|u]; [congruence| ..];
    try (inversion Hd as [|? ? _ Hu]; subst;
         cbn [uint_chars scan_integer scan_unsigned Ascii.eqb Bool.eqb
              is_digit digit_of nat_of_ascii];
         simpl; now rewrite (span_digits_all _ Hu)).
  now rewrite (Hz u eq_refl).
Qed.

Lemma scan_number_emit_int (z : Z) :
  scan_number (emit_int z) = Some (emit_int z, [], [], []).
Proof.
  unfold scan_number, emit_int. destruct (z <? 0)%Z.
  - pose proof (scan_integer_uint (Z.abs_N z)) as H.
    pose proof (uint_chars_digits (N.to_uint (Z.abs_N z))) as Hd.
    pose proof (N_to_uint_nonnil (Z.abs_N z)) as Hnn.
    cbn [scan_integer Ascii.eqb Bool.eqb].
    destruct (N.to_uint (Z.abs_N z)) as [|u|u|u|u|u|u|u|u|u|u];
      [congruence| ..];
      cbn [uint_chars scan_integer Ascii.eqb Bool.eqb] in H;
      cbn [uint_chars]; now rewrite H.
  - now rewrite scan_integer_uint.
Qed.

Lemma int_of_literal_emit_int (z : Z) :
  (int_digits z <= int_max_str_digits)%N ->
  int_of_literal (emit_int z) = Ok (JInt z).
Proof.
  unfold int_digits, emit_int, int_of_literal. intros Hlen.
  destruct (z <? 0)%Z eqn:Hz.
  - cbn [Ascii.eqb Bool.eqb].
    apply N.ltb_ge in Hlen. rewrite Hlen.
    rewrite scan_uint_chars. cbn [fst].
    rewrite DecimalN.Unsigned.of_to. repeat f_equal.
    apply Z.ltb_lt in Hz. rewrite N2Z.inj_abs_N. lia.
  - apply Z.ltb_ge in Hz.
    assert (Hn : Z.abs_N z = Z.to_N z) by now destruct z.
    rewrite Hn in Hlen. apply N.ltb_ge in Hlen.
    pose proof (N_to_uint_nonnil (Z.to_N z)) as Hnn.
    pose proof (scan_uint_chars (N.to_uint (Z.to_N z))) as Hs.
    pose proof (DecimalN.Unsigned.of_to (Z.to_N z)) as Hof.
    destruct (N.to_uint (Z.to_N z)) as [|u|u|u|u|u|u|u|u|u|u];
      [congruence| ..];
      cbn [uint_chars Ascii.eqb Bool.eqb] in *;
      rewrite Hlen, Hs; cbn [fst]; rewrite Hof; now rewrite Z2N.id.
Qed.

Lemma parse_number_emit_int (z : Z) (rest : list ascii) :
  (int_digits z <= int_max_str_digits)%N ->
  ends_number rest = true ->
  parse_number (emit_int z ++ rest) = Ok (JInt z, rest).
Proof.
  intros Hlen Hrest. unfold parse_number.
  rewrite (scan_number_app _ _ _ _ _ _ Hrest (scan_number_emit_int z)).
  cbn [number_value app]. now rewrite (int_of_literal_emit_int z Hlen).
Qed.

Lemma float_literal_cases (literal : string) :
  is_float_literal literal = true ->
  literal = "Infinity" \/ literal = "-Infinity"
  \/ exists i f e,
       scan_number (list_ascii_of_string literal) = Some (i, f, e, [])
       /\ number_value i f e
          = Ok (JFloat (string_of_list_ascii (i ++ f ++ e))).
Proof.
  unfold is_float_literal. rewrite !orb_true_iff.
  intros [[H|H]|H].
  - left. now apply String.eqb_eq.
  - right. left. now apply String.eqb_eq.
  - right. right.
    destruct (scan_number (list_ascii_of_string literal))
      as [[[[i f] e] [|c r]]|]; try discriminate H.
    exists i, f, e. split; [reflexivity|].
    destruct f, e; try discriminate H; reflexivity.
Qed.

Lemma parse_number_float (literal : string) (rest : list ascii) :
  is_float_literal literal = true ->
  ends_number rest = true ->
  parse_number (list_ascii_of_string literal ++ rest)
  = Ok (JFloat literal, rest).
Proof.
  intros Hlit Hrest.
  destruct (float_literal_cases _ Hlit)
    as [-> | [-> | (i & f & e & Hscan & Hval)]]; try reflexivity.
  unfold parse_number.
  rewrite (scan_number_app _ _ _ _ _ _ Hrest Hscan), Hval. cbn [bind app].
  pose proof (scan_number_eq _ _ _ _ _ Hscan) as E.
  rewrite !app_nil_r in E. rewrite <- E.
  now rewrite string_of_list_ascii_of_string.
Qed.

(** The first character of a float literal, and what it starts. *)
Lemma float_literal_head (literal : string) :
  is_float_literal literal = true ->
  exists c tl,
    list_ascii_of_string literal = c :: tl
    /\ is_ws c = false /\ Ascii.eqb c "]"%char = false
    /\ forall fuel rest,
         parse_value (S fuel) (c :: tl ++ rest)
         = parse_number (c :: tl ++ rest).
Proof.
  intros Hlit.
  destruct (float_literal_cases _ Hlit)
    as [-> | [-> | (i & f & e & Hscan & _)]].
  - eexists; eexists; repeat split.
  - eexists; eexists; repeat split.
  - destruct (list_ascii_of_string literal) as [|c tl]; [discriminate|].
    assert (Hc : c = "-"%char \/ is_digit c = true)
      by (apply (scan_number_head c tl); now rewrite Hscan).
    exists c, tl. split; [reflexivity|].
    destruct (number_starts_value c tl 0 Hc) as (H1 & H2 & _).
    split; [exact H1|]. split; [exact H2|].
    intros fuel rest. now apply number_starts_value.
Qed.

Lemma emit_int_head (z : Z) :
  exists c tl,
    emit_int z = c :: tl /\ (c = "-"%char \/ is_digit c = true).
Proof.
  unfold emit_int. destruct (z <? 0)%Z.
  - eexists; eexists; split; [reflexivity | now left].
  - pose proof (N_to_uint_nonnil (Z.to_N z)) as Hnn.
    destruct (N.to_uint (Z.to_N z)); [congruence| ..];
      eexists; eexists; (split; [reflexivity | now right]).
Qed.

Lemma parse_chars_escape (c : ascii) (tail : list ascii) :
  parse_chars (escape_char c ++ tail) =
    (p <- parse_chars tail ;; Ok (c :: fst p, snd p)).
Proof. destruct c as [[] [] [] [] [] [] [] []]; reflexivity. Qed.

Lemma parse_chars_emit (cs rest : list ascii) :
  parse_chars (flat_map escape_char cs ++ dquote :: rest) = Ok (cs, rest).
Proof.
  induction cs as [|c cs IH]; [reflexivity|].
  cbn [flat_map]. now rewrite <- app_assoc, parse_chars_escape, IH.
Qed.

Lemma parse_string_emit (s : string) (rest : list ascii) :
  exists tl,
    emit_string s ++ rest = dquote :: tl
    /\ parse_string tl = Ok (s, rest).
Proof.
  exists (flat_map escape_char (list_ascii_of_string s) ++ dquote :: rest).
  split.
  - unfold emit_string. simpl. now rewrite <- app_assoc.
  - unfold parse_string. rewrite parse_chars_emit. cbn [bind fst snd].
    now rewrite string_of_list_ascii_of_string.
Qed.

Lemma parse_value_space (fuel : nat) (s : list ascii) :
  parse_value fuel (" "%char :: s) = parse_value fuel s.
Proof. destruct fuel; reflexivity. Qed.

Lemma parse_elements_space (fuel : nat) (s : list ascii) :
  parse_elements fuel (" "%char :: s) = parse_elements fuel s.
Proof.
  destruct fuel; [reflexivity|]. cbn [parse_elements].
  now rewrite parse_value_space.
Qed.

Lemma parse_members_space (fuel : nat) (s : list ascii) :
  parse_members fuel (" "%char :: s) = parse_members fuel s.
Proof. destruct fuel; reflexivity. Qed.

Lemma parse_value_quote (fuel : nat) (tl : list ascii) :
  parse_value (S fuel) (dquote :: tl) =
    (p <- parse_string tl ;; Ok (JStr (fst p), snd p)).
Proof. reflexivity. Qed.

Lemma parse_value_bracket (fuel : nat) (c : ascii) (tl : list ascii) :
  is_ws c = false -> Ascii.eqb c "]"%char = false ->
  parse_value (S fuel) ("["%char :: c :: tl) =
    (p <- parse_elements fuel (c :: tl) ;; Ok (JArr (fst p), snd p)).
Proof.
  intros Hws Hc.
  change (parse_value (S fuel) ("["%char :: c :: tl))
    with (match skip_ws (c :: tl) with
          | [] => Raise JSONDecodeError
          | c' :: r' =>
              if Ascii.eqb c' "]"%char then Ok (JArr [], r')
              else
                p <- parse_elements fuel (c :: tl) ;;
                Ok (JArr (fst p), snd p)
          end).
  cbn [skip_ws]. now rewrite Hws, Hc.
Qed.

Lemma parse_value_brace (fuel : nat) (tl : list ascii) :
  parse_value (S fuel) ("{"%char :: dquote :: tl) =
    (p <- parse_members fuel (dquote :: tl) ;;
     Ok (JObj (dict_of_pairs (fst p)), snd p)).
Proof. reflexivity. Qed.

Lemma parse_elements_S (fuel : nat) (s : list ascii) :
  parse_elements (S fuel) s =
    (p <- parse_value fuel s ;;
     match skip_ws (snd p) with
     | [] => Raise JSONDecodeError
     | c :: r' =>
         if Ascii.eqb c ","%char then
           q <- parse_elements fuel r' ;;
           Ok (fst p :: fst q, snd q)
         else if Ascii.eqb c "]"%char then Ok ([fst p], r')
         else Raise JSONDecodeError
     end).
Proof. reflexivity. Qed.

Lemma parse_members_colon (fuel : nat) (k : string) (tl r2 : list ascii) :
  parse_string tl = Ok (k, ":"%char :: r2) ->
  parse_members (S fuel) (dquote :: tl) =
    (p <- parse_value fuel r2 ;;
     match skip_ws (snd p) with
     | [] => Raise JSONDecodeError
     | c3 :: r4 =>
         if Ascii.eqb c3 ","%char then
           m <- parse_members fuel r4 ;;
           Ok ((k, fst p) :: fst m, snd m)
         else if Ascii.eqb c3 "}"%char then Ok ([(k, fst p)], r4)
         else Raise JSONDecodeError
     end).
Proof.
  intros H.
  change (parse_members (S fuel) (dquote :: tl))
    with (k0 <- parse_string tl ;;
          match skip_ws (snd k0) with
          | [] => Raise JSONDecodeError
          | c1 :: r2 =>
              if Ascii.eqb c1 ":"%char then
                p <- parse_value fuel r2 ;;
                match skip_ws (snd p) with
                | [] => Raise JSONDecodeError
                | c3 :: r4 =>
                    if Ascii.eqb c3 ","%char then
                      m <- parse_members fuel r4 ;;
                      Ok ((fst k0, fst p) :: fst m, snd m)
                    else if Ascii.eqb c3 "}"%char
                         then Ok ([(fst k0, fst p)], r4)
                    else Raise JSONDecodeError
                end
              else Raise JSONDecodeError
          end).
  now rewrite H.
Qed.

Lemma emit_head (v : json) :
  wf_json v ->
  exists c tl,
    emit v = c :: tl /\ is_ws c = false /\ Ascii.eqb c "]"%char = false.
Proof.
  destruct v as [|[|]|z|literal|s|items|items|members]; intros Hwf;
    try (eexists; eexists; split; [reflexivity|split; reflexivity]).
  - destruct (emit_int_head z) as (c & tl & Hz & Hc).
    exists c, tl. split; [exact Hz|].
    destruct (number_starts_value c tl 0 Hc) as (H1 & H2 & _). now split.
  - destruct (float_literal_head literal Hwf) as (c & tl & Hl & H1 & H2 & _).
    exists c, tl. now split.
Qed.

Lemma dict_of_pairs_distinct (l : list (string * json)) :
  NoDup (dict_keys l) -> dict_of_pairs l = l.
Proof.
  unfold dict_of_pairs.
  assert (H : forall acc, NoDup (dict_keys (acc ++ l)) ->
            fold_left (fun d kv => dict_set d (fst kv) (snd kv)) l acc
            = acc ++ l).
  { induction l as [|[k v] l IH]; intros acc Hnd; simpl.
    - now rewrite app_nil_r.
    - rewrite dict_set_fresh.
      + rewrite IH; rewrite <- app_assoc; [reflexivity|exact Hnd].
      + unfold dict_keys in *. rewrite map_app in Hnd. simpl in Hnd.
        apply NoDup_remove_2 in Hnd. intros Hin. apply Hnd.
        apply in_or_app. now left. }
  intros Hnd. now apply (H []).
Qed.

Lemma wf_json_arr (items : list json) :
  wf_json (JArr items) <-> Forall wf_json items.
Proof.
  induction items as [|x items IH]; simpl.
  - split; constructor.
  - simpl in IH. rewrite IH. split.
    + intros [H1 H2]. now constructor.
    + intros H. now inversion H.
Qed.

Lemma wf_json_obj (members : dict json) :
  wf_json (JObj members)
  <-> NoDup (dict_keys members)
      /\ Forall (fun kv => wf_json (snd kv)) members.
Proof.
  simpl.
  assert (H : (fix all (l : list (string * json)) : Prop :=
                 match l with
                 | [] => True
                 | kv :: r => wf_json (snd kv) /\ all r
                 end) members
              <-> Forall (fun kv => wf_json (snd kv)) members).
  { induction members as [|kv members IH].
    - split; constructor.
    - rewrite IH. split.
      + intros [H1 H2]. now constructor.
      + intros H. now inversion H. }
  now rewrite H.
Qed.

Lemma join_cons2 (p q : list ascii) (r : list (list ascii)) :
  join (p :: q :: r) = p ++ ","%char :: " "%char :: join (q :: r).
Proof. reflexivity. Qed.

Lemma parse_elements_join (items : list json) :
  items <> [] ->
  Forall decodes items ->
  forall fuel rest,
    List.length (join (map emit items)) < fuel ->
    parse_elements fuel (join (map emit items) ++ "]"%char :: rest)
    = Ok (items, rest).
Proof.
  induction items as [|x items IH]; [congruence|].
  intros _ HF fuel rest Hlen. inversion HF as [|? ? Hx Hitems]; subst.
  destruct fuel as [|fuel]; [lia|]. rewrite parse_elements_S.
  destruct items as [|y items].
  - cbn [map join] in *. rewrite Hx; [reflexivity|lia|reflexivity].
  - cbn [map join] in *. rewrite <- app_assoc.
    rewrite length_app in Hlen. cbn [List.length] in Hlen.
    rewrite Hx; [|lia|reflexivity].
    cbn [bind fst snd app skip_ws]. change (is_ws ","%char) with false.
    cbv iota.
    change (Ascii.eqb ","%char ","%char) with true. cbv iota.
    rewrite parse_elements_space, IH; [reflexivity|discriminate|exact Hitems|lia].
Qed.

Lemma parse_members_join (members : dict json) :
  members <> [] ->
  Forall (fun kv => decodes (snd kv)) members ->
  forall fuel rest,
    List.length (join (map emit_member members)) < fuel ->
    parse_members fuel (join (map emit_member members) ++ "}"%char :: rest)
    = Ok (members, rest).
Proof.
  induction members as [|[k v] members IH]; [congruence|].
  intros _ HF fuel rest Hlen. inversion HF as [|? ? Hv Hmembers]; subst.
  simpl in Hv.
  destruct fuel as [|fuel]; [lia|].
  destruct members as [|kv members].
  - cbn [map join] in *. unfold emit_member in *. cbn [fst snd] in *.
    rewrite <- app_assoc.
    destruct (parse_string_emit k
                ((":"%char :: " "%char :: emit v) ++ "}"%char :: rest))
      as (tl & -> & Hk).
    cbn [app] in Hk.
    rewrite (parse_members_colon _ _ _ _ Hk), parse_value_space.
    rewrite length_app in Hlen. cbn [List.length] in Hlen.
    rewrite Hv; [reflexivity|lia|reflexivity].
  - cbn [map] in *. rewrite join_cons2 in *. unfold emit_member at 1.
    unfold emit_member at 1 in Hlen. cbn [fst snd] in *.
    rewrite <- !app_assoc.
    destruct (parse_string_emit k
                ((":"%char :: " "%char :: emit v)
                   ++ (","%char :: " "%char
                         :: join (emit_member kv :: map emit_member members))
                   ++ "}"%char :: rest))
      as (tl & -> & Hk).
    cbn [app] in Hk.
    rewrite (parse_members_colon _ _ _ _ Hk), parse_value_space.
    rewrite !length_app in Hlen. cbn [List.length] in Hlen.
    rewrite Hv; [|lia|reflexivity].
    cbn [bind fst snd app skip_ws]. change (is_ws ","%char) with false.
    cbv iota.
    change (Ascii.eqb ","%char ","%char) with true. cbv iota.
    rewrite parse_members_space.
    change (emit_member kv :: map emit_member members)
      with (map emit_member (kv :: members)) in *.
    rewrite IH; [reflexivity|discriminate|exact Hmembers|lia].
Qed.

(** The decoder reads back every value the encoder wrote that is neither a
    tuple nor out of the decoder's range, and leaves what follows it. *)
Lemma parse_value_emit (v : json) : wf_json v -> decodes v.
Proof.
  induction v as [| b | z | literal | s | items IH | items IH | members IH]
    using json_nested_ind; intros Hwf fuel rest Hlen Hrest.
  - destruct fuel as [|fuel]; [simpl in Hlen; lia|reflexivity].
  - destruct fuel as [|fuel]; [destruct b; simpl in Hlen; lia|].
    destruct b; reflexivity.
  - cbn [emit wf_json] in *.
    destruct (emit_int_head z) as (c & tl & Hz & Hc).
    destruct fuel as [|fuel]; [rewrite Hz in Hlen; simpl in Hlen; lia|].
    pose proof (parse_number_emit_int z rest Hwf
                  (at_delimiter_ends_number _ Hrest)) as Hp.
    rewrite Hz in *. cbn [app] in *.
    destruct (number_starts_value c (tl ++ rest) fuel Hc) as (_ & _ & ->).
    exact Hp.
  - cbn [emit wf_json] in *.
    destruct (float_literal_head literal Hwf) as (c & tl & Hl & _ & _ & Hv).
    pose proof (parse_number_float literal rest Hwf
                  (at_delimiter_ends_number _ Hrest)) as Hp.
    rewrite Hl in *.
    destruct fuel as [|fuel]; [simpl in Hlen; lia|].
    cbn [app] in *. now rewrite Hv.
  - cbn [emit] in *.
    destruct fuel as [|fuel]; [unfold emit_string in Hlen; simpl in Hlen; lia|].
    destruct (parse_string_emit s rest) as (tl & -> & Hs).
    now rewrite parse_value_quote, Hs.
  - cbn [emit] in *. apply wf_json_arr in Hwf.
    assert (HF : Forall decodes items).
    { rewrite Forall_forall in *. intros x Hx. now apply IH, Hwf. }
    cbn [List.length] in Hlen. rewrite length_app in Hlen.
    cbn [List.length] in Hlen.
    destruct fuel as [|fuel]; [lia|].
    destruct items as [|x items]; [reflexivity|].
    destruct (emit_head x) as (c & tl & Hx & Hws & Hc);
      [rewrite Forall_forall in Hwf; apply Hwf; now left|].
    cbn [app]. rewrite <- app_assoc. cbn [app].
    assert (Hj : exists tl', join (map emit (x :: items)) = c :: tl').
    { cbn [map join]. rewrite Hx. destruct (map emit items); eexists;
        reflexivity. }
    destruct Hj as [tl' Hj].
    pose proof (parse_elements_join (x :: items) ltac:(discriminate) HF
                  fuel rest) as Hp.
    rewrite Hj in *. cbn [app] in *.
    rewrite (parse_value_bracket _ _ _ Hws Hc), Hp; [reflexivity|lia].
  - contradiction Hwf.
  - cbn [emit] in *. apply wf_json_obj in Hwf as [Hnd Hwf].
    assert (HF : Forall (fun kv => decodes (snd kv)) members).
    { rewrite Forall_forall in *. intros x Hx. now apply IH, Hwf. }
    fold emit_member in *.
    change (map (fun kv => emit_member kv) members)
      with (map emit_member members) in *.
    cbn [List.length] in Hlen. rewrite length_app in Hlen.
    cbn [List.length] in Hlen.
    destruct fuel as [|fuel]; [lia|].
    destruct members as [|[k v] members]; [reflexivity|].
    cbn [app]. rewrite <- app_assoc. cbn [app].
    assert (Hj : exists tl',
               join (map emit_member ((k, v) :: members)) = dquote :: tl').
    { destruct members as [|kv members']; cbn [map];
        [cbn [join] | rewrite join_cons2];
        unfold emit_member at 1, emit_string; cbn [fst app];
        eexists; reflexivity. }
    destruct Hj as [tl' Hj].
    pose proof (parse_members_join ((k, v) :: members) ltac:(discriminate)
                  HF fuel rest) as Hp.
    rewrite Hj in *. cbn [app] in *.
    rewrite parse_value_brace, Hp; [|lia]. cbn [bind fst snd].
    now rewrite dict_of_pairs_distinct.
Qed.

(** [json.loads(json.dumps(v))] is [v]. *)
Lemma loads_dumps (v : json) : wf_json v -> loads (dumps v) = Ok v.
Proof.
  intros Hwf. unfold loads, dumps.
  rewrite list_ascii_of_string_of_list_ascii.
  pose proof (parse_value_emit v Hwf (S (List.length (emit v))) []
                ltac:(lia) eq_refl) as H.
  rewrite app_nil_r in H. now rewrite H.
Qed.

(** How the decoder reads numbers: no leading zero, a fraction or an
    exponent makes a float, and what follows a number must be the end of the
    text. *)
Example decoder_reads_numbers :
  loads "01" = Raise JSONDecodeError
  /\ loads "0.5" = Ok (JFloat "0.5")
  /\ loads "-12" = Ok (JInt (-12))
  /\ loads "1e5" = Ok (JFloat "1e5")
  /\ loads "1." = Raise JSONDecodeError
  /\ loads "[0, -0.0, 1E-2]" = Ok (JArr [JInt 0; JFloat "-0.0"; JFloat "1E-2"]).
Proof. repeat split. Qed.

(** [json.dumps] does not raise on such a value, while the interpreter has
    as many levels left as the value is deep, and returns the text of
    [dumps]. *)
Lemma emit_checked_ok (v : json) :
  wf_json v ->
  forall limit, depth v <= limit -> emit_checked limit v = Ok (emit v).
Proof.
  induction v as [| b | z | literal | s | items IH | items IH | members IH]
    using json_nested_ind; intros Hwf limit Hdepth; try reflexivity.
  - cbn [emit_checked wf_json emit] in *.
    apply N.ltb_ge in Hwf. now rewrite Hwf.
  - apply wf_json_arr in Hwf. cbn [depth] in Hdepth.
    destruct limit as [|limit]; [lia|]. apply Nat.succ_le_mono in Hdepth.
    cbn [emit_checked emit].
    assert (H : (fix all (l : list json) : result (list (list ascii)) :=
                   match l with
                   | [] => Ok []
                   | x :: r =>
                       p <- emit_checked limit x ;;
                       ps <- all r ;;
                       Ok (p :: ps)
                   end) items = Ok (map emit items)).
    { clear - IH Hwf Hdepth.
      induction items as [|x items IHitems]; [reflexivity|].
      inversion IH as [|? ? Hx Hrest]; subst.
      inversion Hwf as [|? ? Hwx Hwrest]; subst.
      cbn [fold_right] in Hdepth.
      rewrite (Hx Hwx limit) by lia. cbn [bind].
      rewrite (IHitems Hrest Hwrest) by lia. reflexivity. }
    now rewrite H.
  - contradiction Hwf.
  - apply wf_json_obj in Hwf as [_ Hwf]. cbn [depth] in Hdepth.
    destruct limit as [|limit]; [lia|]. apply Nat.succ_le_mono in Hdepth.
    cbn [emit_checked emit].
    assert (H : (fix all (l : list (string * json))
                   : result (list (list ascii)) :=
                   match l with
                   | [] => Ok []
                   | kv :: r =>
                       p <- emit_checked limit (snd kv) ;;
                       ps <- all r ;;
                       Ok ((emit_string (fst kv)
                              ++ ":"%char :: " "%char :: p) :: ps)
                   end) members
                = Ok (map (fun kv => emit_string (fst kv)
                                       ++ ":"%char :: " "%char
                                       :: emit (snd kv)) members)).
    { clear - IH Hwf Hdepth.
      induction members as [|kv members IHmembers]; [reflexivity|].
      inversion IH as [|? ? Hx Hrest]; subst.
      inversion Hwf as [|? ? Hwx Hwrest]; subst.
      cbn [fold_right] in Hdepth.
      rewrite (Hx Hwx limit) by lia. cbn [bind].
      rewrite (IHmembers Hrest Hwrest) by lia. reflexivity. }
    now rewrite H.
Qed.

Lemma dumps_checked_ok (v : json) (limit : nat) :
  wf_json v -> depth v <= limit -> dumps_checked limit v = Ok (dumps v).
Proof.
  intros Hwf Hdepth. unfold dumps_checked, dumps.
  now rewrite (emit_checked_ok v Hwf limit Hdepth).
Qed.

(** ** Snapshots of a state *)

Lemma map_result_map {A B} (f : A -> B) (g : B -> result A) (l : list A) :
  (forall x, g (f x) = Ok x) ->
  StateSpec.map_result g (map f l) = Ok l.
Proof.
  intros H. induction l as [|x l IH]; [reflexivity|].
  simpl. now rewrite H, IH.
Qed.

Lemma tool_call_from_to_dict (tc : ToolCall) :
  StateSpec.tool_call_from_dict (StateSpec.tool_call_to_dict tc) = Ok tc.
Proof. now destruct tc. Qed.

Lemma message_from_to_dict (m : Message) :
  StateSpec.message_from_dict (StateSpec.message_to_dict m) = Ok m.
Proof.
  destruct m as [r c tcs i].
  unfold StateSpec.message_from_dict, StateSpec.message_to_dict.
  cbn [role content tool_calls msg_id StateSpec.field dict_get String.eqb
       Ascii.eqb Bool.eqb bind].
  assert (Hr : StateSpec.role_of_name (StateSpec.role_name r) = Ok r)
    by now destruct r.
  rewrite Hr. cbn [bind].
  rewrite (map_result_map _ _ tcs tool_call_from_to_dict). cbn [bind].
  now destruct i.
Qed.

Lemma filter_undeclared (d : dict json) :
  Forall (fun kv => StateSpec.declared (fst kv) = false /\ wf_json (snd kv)) d ->
  filter (fun kv => negb (StateSpec.declared (fst kv))) d = d.
Proof.
  induction 1 as [|kv d [Hk _] _ IH]; [reflexivity|].
  simpl. now rewrite Hk, IH.
Qed.

Lemma state_from_to_dict (s : State) :
  StateSpec.wf_state s ->
  StateSpec.state_from_dict (StateSpec.state_to_dict s) = Ok s.
Proof.
  intros (_ & Hextra & _). destruct s as [ms flag ex]. simpl in Hextra.
  unfold StateSpec.state_from_dict, StateSpec.state_to_dict.
  cbn [messages is_last_step extra StateSpec.field dict_get String.eqb
       Ascii.eqb Bool.eqb bind].
  rewrite (map_result_map _ _ ms message_from_to_dict). cbn [bind].
  cbn [filter fst StateSpec.declared String.eqb Ascii.eqb Bool.eqb orb negb].
  now rewrite (filter_undeclared _ Hextra).
Qed.

Lemma message_to_dict_wf (m : Message) :
  Forall (fun tc => wf_json (tc_args tc)) (tool_calls m) ->
  wf_json (StateSpec.message_to_dict m).
Proof.
  intros Hargs. unfold StateSpec.message_to_dict. apply wf_json_obj. split.
  - repeat constructor; simpl; intuition discriminate.
  - constructor; [exact I|]. constructor; [exact I|].
    constructor; [|constructor; [now destruct (msg_id m) | constructor]].
    cbn [snd]. apply wf_json_arr. rewrite Forall_map.
    apply Forall_impl with (2 := Hargs). intros tc Htc.
    unfold StateSpec.tool_call_to_dict. apply wf_json_obj. split.
    + repeat constructor; simpl; intuition discriminate.
    + constructor; [exact I|]. constructor; [exact Htc | constructor].
Qed.

Lemma not_declared_neq (k : string) :
  StateSpec.declared k = false -> k <> "messages" /\ k <> "is_last_step".
Proof. intros H. split; intros ->; discriminate H. Qed.

Lemma state_to_dict_wf (s : State) :
  StateSpec.wf_state s -> wf_json (StateSpec.state_to_dict s).
Proof.
  intros (Hnd & Hextra & Hmsgs). unfold StateSpec.state_to_dict.
  apply wf_json_obj. split.
  - cbn [dict_keys map fst].
    assert (Hfree : forall k, In k (map fst (extra s)) ->
                      k <> "messages" /\ k <> "is_last_step").
    { intros k Hk. apply in_map_iff in Hk as (kv & <- & Hkv).
      rewrite Forall_forall in Hextra.
      now apply not_declared_neq, Hextra. }
    constructor; [|constructor; [|exact Hnd]].
    + intros [H|H]; [discriminate H|]. now destruct (Hfree _ H).
    + intros H. now destruct (Hfree _ H).
  - constructor; [|constructor].
    + cbn [snd]. apply wf_json_arr. rewrite Forall_map.
      apply Forall_impl with (2 := Hmsgs). exact message_to_dict_wf.
    + exact I.
    + apply Forall_impl with (2 := Hextra). now intros kv [_ H].
Qed.


Lemma with_extras_wf : StateSpec.wf_state Scenario.with_extras.
Proof.
  split; [|split].
  - repeat constructor; simpl; intuition discriminate.
  - repeat (apply Forall_cons; [split; [reflexivity|]|]);
      [ .. | apply Forall_nil]; cbn [wf_json snd].
    + apply N.leb_le. reflexivity.
    + reflexivity.
    + reflexivity.
    + exact I.
    + repeat split.
    + split; [repeat constructor; simpl; intuition discriminate|].
      split; [apply N.leb_le; reflexivity | repeat split].
  - repeat constructor; simpl; tauto.
Qed.

Lemma with_extras_depth :
  depth (to_dict StateSpec.state_class Scenario.with_extras) <= 6.
Proof. vm_compute. lia. Qed.



(* ================================================================== *)
(** * Part III: further properties of the module *)
(* ================================================================== *)

(** ** The state during a run *)

Lemma extends_refl (s : State) : extends s s.
Proof. repeat split. exists []. now rewrite app_nil_r. Qed.

Lemma extends_trans (a b c : State) : extends a b -> extends b c -> extends a c.
Proof.
  intros ([x Hx] & Hf & He) ([y Hy] & Hf' & He'). repeat split.
  - exists (x ++ y). now rewrite Hy, Hx, app_assoc.
  - congruence.
  - congruence.
Qed.

Lemma extends_merge_output (s : State) (output : Output) :
  extends s (merge_output s output).
Proof.
  unfold merge_output. destruct (dict_get output "messages") as [ms|];
    [|apply extends_refl].
  repeat split. now exists ms.
Qed.

Lemma run_loop_extends (cls : StateClass) (gr : Graph) (fuel : nat)
  (g : gstate gr) (state : State) (w : World) :
  exists new,
    trace (snd (run_loop cls gr fuel g state w)) = trace w ++ new
    /\ Forall (fun ev => extends state (event_state ev)) new
    /\ (forall final,
          fst (run_loop cls gr fuel g state w) = Some (Ok final) ->
          extends state final).
Proof.
  apply (run_loop_cases cls gr
           (fun state w res =>
              exists new,
                trace (snd res) = trace w ++ new
                /\ Forall (fun ev => extends state (event_state ev)) new
                /\ (forall final, fst res = Some (Ok final) ->
                                  extends state final))).
  - intros s0 w0. exists []. simpl. rewrite app_nil_r.
    split; [reflexivity|]. split; [constructor | discriminate].
  - intros s0 w0 e. eexists. simpl fst. simpl snd.
    split; [apply after_round_trace|].
    split; [repeat constructor; apply extends_refl | discriminate].
  - intros s0 w0 output. eexists. simpl fst. simpl snd.
    split; [apply after_round_trace|].
    split; [repeat constructor; apply extends_refl|].
    intros final H. injection H as <-. apply extends_merge_output.
  - intros s0 w0 output res (new & Htrace & Hall & Hfinal).
    exists (Saved (next_checkpoint_id (CHECKPOINTS w0)) s0
              :: Executed s0 :: new).
    split; [|split].
    + rewrite Htrace, after_round_trace, <- app_assoc. reflexivity.
    + constructor; [apply extends_refl|].
      constructor; [apply extends_refl|].
      apply Forall_impl with (2 := Hall). intros ev Hev.
      apply extends_trans with (2 := Hev). apply extends_merge_output.
    + intros final H. apply extends_trans with (2 := Hfinal final H).
      apply extends_merge_output.
Qed.

(** X2: The runner only appends: every state it checkpoints, runs a step on or
    returns is the state the run started from with messages added at the
    end; the step-budget flag and the extra fields are never touched. *)
Theorem run_appends_only :
  forall (cls : StateClass) (gr : Graph) (g0 : gstate gr) (fuel : nat)
         (initial_input : InputState) (resume : option string)
         (modifications : option (dict attr_value)) (w : World)
         (state0 : State),
    initial_state cls initial_input resume modifications w = Ok state0 ->
    let (outcome, w') :=
      run_agent_with_time_travel cls gr g0 fuel initial_input resume
        modifications w in
    exists new,
      trace w' = trace w ++ new
      /\ Forall (fun ev => extends state0 (event_state ev)) new
      /\ match outcome with
         | Some (Ok final) => extends state0 final
         | _ => True
         end.
Proof.
  intros cls gr g0 fuel initial_input resume modifications w state0 Hinit.
  unfold run_agent_with_time_travel. rewrite Hinit.
  destruct (run_loop_extends cls gr fuel g0 state0 w)
    as (new & Htrace & Hall & Hfinal).
  destruct (run_loop cls gr fuel g0 state0 w) as [[[final|e]|] w1];
    simpl in Htrace, Hfinal.
  - cbn [save_checkpoint].
    exists (new ++ [Saved (next_checkpoint_id (CHECKPOINTS w1)) final]).
    simpl. split; [now rewrite Htrace, app_assoc|].
    split; [|now apply Hfinal].
    apply Forall_app. split; [exact Hall|].
    constructor; [now apply Hfinal | constructor].
  - exists new. now repeat split.
  - exists new. now repeat split.
Qed.

Lemma run_appends_only_witness :
  let (outcome, w') := Scenario.keen_run 2 in
  exists new,
    trace w' = trace empty_world ++ new
    /\ Forall (fun ev => extends Scenario.fresh (event_state ev)) new
    /\ match outcome with
       | Some (Ok final) => extends Scenario.fresh final
       | _ => True
       end.
Proof.
  exact (run_appends_only StateSpec.state_class (graph Scenario.keen)
           start_position 2 {| input_messages := [Scenario.question] |}
           None None empty_world Scenario.fresh eq_refl).
Defined.

(** ** The listing of checkpoints *)

Lemma run_loop_listing (cls : StateClass) (gr : Graph) (fuel : nat)
  (g : gstate gr) (state : State) (w : World) :
  exists more,
    list_checkpoints (snd (run_loop cls gr fuel g state w))
    = list_checkpoints w ++ more.
Proof.
  apply (run_loop_cases cls gr
           (fun _ w res =>
              exists more,
                list_checkpoints (snd res) = list_checkpoints w ++ more)).
  - intros s0 w0. exists []. simpl. now rewrite app_nil_r.
  - intros s0 w0 e. simpl snd. unfold list_checkpoints.
    rewrite after_round_store. apply dict_set_keys.
  - intros s0 w0 output. simpl snd. unfold list_checkpoints.
    rewrite after_round_store. apply dict_set_keys.
  - intros s0 w0 output res [more Hmore].
    unfold list_checkpoints in *. rewrite after_round_store in Hmore.
    destruct (dict_set_keys (CHECKPOINTS w0)
                (next_checkpoint_id (CHECKPOINTS w0))
                (serialize_state cls s0)) as [one Hone].
    exists (one ++ more). now rewrite Hmore, Hone, app_assoc.
Qed.

(** X3: Whatever the store holds when the runner is called, also a store that
    something else has written to, the call removes and reorders nothing:
    the identifiers listed before the call are the first ones listed after
    it, in the same order. *)
Theorem listing_only_grows :
  forall (cls : StateClass) (gr : Graph) (g0 : gstate gr) (fuel : nat)
         (initial_input : InputState) (resume : option string)
         (modifications : option (dict attr_value)) (w : World),
    exists more,
      list_checkpoints
        (snd (run_agent_with_time_travel cls gr g0 fuel initial_input
                resume modifications w))
      = list_checkpoints w ++ more.
Proof.
  intros cls gr g0 fuel initial_input resume modifications w.
  unfold run_agent_with_time_travel.
  destruct (initial_state cls initial_input resume modifications w)
    as [state0|e].
  2:{ exists []. simpl. now rewrite app_nil_r. }
  destruct (run_loop_listing cls gr fuel g0 state0 w) as [more Hmore].
  destruct (run_loop cls gr fuel g0 state0 w) as [[[final|e]|] w1];
    simpl in Hmore; try (now exists more).
  cbn [save_checkpoint snd]. unfold list_checkpoints in *. simpl.
  destruct (dict_set_keys (CHECKPOINTS w1)
              (next_checkpoint_id (CHECKPOINTS w1))
              (serialize_state cls final)) as [one Hone].
  exists (more ++ one). now rewrite Hone, Hmore, app_assoc.
Qed.

(** X4: The risk of naming checkpoints by the size of the store: when the
    store already has the key [ckpt_<size>] (it was not written by saves
    alone), a save replaces the snapshot under that key, the listing and the
    size stay what they were, and so the next save takes the same identifier
    again. *)
Theorem save_overwrites_on_collision :
  forall (cls : StateClass) (label : string) (state : State) (w : World),
    In (next_checkpoint_id (CHECKPOINTS w)) (list_checkpoints w) ->
    let (id, w') := save_checkpoint cls label state w in
    id = next_checkpoint_id (CHECKPOINTS w)
    /\ list_checkpoints w' = list_checkpoints w
    /\ dict_get (CHECKPOINTS w') id = Some (serialize_state cls state)
    /\ next_checkpoint_id (CHECKPOINTS w') = id.
Proof.
  intros cls label state w Hin. cbn [save_checkpoint].
  destruct (dict_set_present (CHECKPOINTS w)
              (next_checkpoint_id (CHECKPOINTS w))
              (serialize_state cls state) Hin) as [Hkeys Hlen].
  repeat split.
  - exact Hkeys.
  - simpl. apply dict_get_set_same.
  - cbn [CHECKPOINTS]. unfold next_checkpoint_id in *. now rewrite Hlen.
Qed.

Lemma save_overwrites_on_collision_witness :
  let w :=
    {| CHECKPOINTS := [("ckpt_1", "{}")]; stdout := []; trace := [] |} in
  let (id, w') :=
    save_checkpoint StateSpec.state_class "Checkpoint saved: "
      Scenario.fresh w in
  id = next_checkpoint_id (CHECKPOINTS w)
  /\ list_checkpoints w' = list_checkpoints w
  /\ dict_get (CHECKPOINTS w') id
     = Some (serialize_state StateSpec.state_class Scenario.fresh)
  /\ next_checkpoint_id (CHECKPOINTS w') = id.
Proof.
  apply (save_overwrites_on_collision StateSpec.state_class
           "Checkpoint saved: " Scenario.fresh
           {| CHECKPOINTS := [("ckpt_1", "{}")]; stdout := [];
              trace := [] |}).
  simpl. now left.
Defined.

(** ** Checkpoints can be loaded again *)

Lemma dict_get_in {V} (d : dict V) (k : string) (v : V) :
  NoDup (dict_keys d) -> In (k, v) d -> dict_get d k = Some v.
Proof.
  induction d as [|[k0 v0] d IH]; simpl; [contradiction|].
  intros Hnd [H|H].
  - injection H as -> ->. now rewrite String.eqb_refl.
  - inversion Hnd as [|? ? Hnotin Hnd']; subst.
    destruct (String.eqb_spec k0 k) as [->|Hne].
    + exfalso. apply Hnotin. apply in_map_iff. now exists (k, v).
    + now apply IH.
Qed.

Lemma saved_entries_in (cls : StateClass) (t : list Event) (id : string)
  (s : State) :
  In (Saved id s) t -> In (id, serialize_state cls s) (saved_entries cls t).
Proof.
  induction t as [|[id' s'|s'] t IH]; simpl; [contradiction| |].
  - intros [H|H]; [injection H as -> ->; now left | right; auto].
  - intros [H|H]; [discriminate | auto].
Qed.

(** In a world the process can be in, the store is what the saves of the
    trace wrote, in their order. *)
Lemma reachable_store_trace (cls : StateClass) (w : World) :
  reachable cls w -> CHECKPOINTS w = saved_entries cls (trace w).
Proof.
  induction 1 as [|w gr g0 fuel initial_input resume modifications Hw IH];
    [reflexivity|].
  destruct (run_agent_world cls gr g0 fuel initial_input resume
              modifications w) as (new & Htrace & _ & Hstore & _).
  destruct (Hstore (reachable_store_ok cls w Hw)) as [Hst _].
  now rewrite Hst, Htrace, saved_entries_app, IH.
Qed.

Lemma reachable_lookup (cls : StateClass) (w : World) (id : string)
  (s : State) :
  reachable cls w ->
  In (Saved id s) (trace w) ->
  dict_get (CHECKPOINTS w) id = Some (serialize_state cls s).
Proof.
  intros Hw Hin. apply dict_get_in.
  - apply store_ok_NoDup. now apply reachable_store_ok with (cls := cls).
  - rewrite (reachable_store_trace cls w Hw). now apply saved_entries_in.
Qed.

(** X5: Every checkpoint the process has ever saved is still in the store,
    under its identifier, with the snapshot of the state it was taken of. *)
Theorem every_checkpoint_loadable :
  forall (cls : StateClass) (w : World) (id : string) (s : State),
    reachable cls w ->
    In (Saved id s) (trace w) ->
    dict_get (CHECKPOINTS w) id = Some (serialize_state cls s).
Proof. intros cls w id s. apply reachable_lookup. Qed.

Lemma every_checkpoint_loadable_witness :
  dict_get (CHECKPOINTS (snd (Scenario.keen_run 2))) "ckpt_0"
  = Some (serialize_state StateSpec.state_class Scenario.fresh).
Proof.
  apply (every_checkpoint_loadable StateSpec.state_class
           (snd (Scenario.keen_run 2)) "ckpt_0" Scenario.fresh).
  - apply reachable_run. apply reachable_start.
  - simpl. now left.
Defined.





(** ** What the runner prints *)

Lemma loop_lines_app (t u : list Event) :
  loop_lines (t ++ u) = loop_lines t ++ loop_lines u.
Proof. unfold loop_lines. now rewrite saved_ids_app, map_app. Qed.

Lemma run_loop_stdout (cls : StateClass) (gr : Graph) (fuel : nat)
  (g : gstate gr) (state : State) (w : World) :
  exists new,
    trace (snd (run_loop cls gr fuel g state w)) = trace w ++ new
    /\ stdout (snd (run_loop cls gr fuel g state w))
       = stdout w ++ loop_lines new.
Proof.
  apply (run_loop_cases cls gr
           (fun _ w res =>
              exists new,
                trace (snd res) = trace w ++ new
                /\ stdout (snd res) = stdout w ++ loop_lines new)).
  - intros s0 w0. exists []. simpl. now rewrite !app_nil_r.
  - intros s0 w0 e. eexists. simpl snd.
    split; [apply after_round_trace | apply after_round_stdout].
  - intros s0 w0 output. eexists. simpl snd.
    split; [apply after_round_trace | apply after_round_stdout].
  - intros s0 w0 output res (new & Htrace & Hout).
    exists (Saved (next_checkpoint_id (CHECKPOINTS w0)) s0
              :: Executed s0 :: new).
    split.
    + rewrite Htrace, after_round_trace, <- app_assoc. reflexivity.
    + rewrite Hout, after_round_stdout, <- app_assoc. reflexivity.
Qed.

(** X9: The runner prints one line for each checkpoint, in order, with its
    identifier: "Checkpoint saved: ..." for those of the loop and, when the
    run returns a state, "Final checkpoint saved: ..." as the last line;
    it prints nothing else. *)
Theorem one_line_per_checkpoint :
  forall (cls : StateClass) (gr : Graph) (g0 : gstate gr) (fuel : nat)
         (initial_input : InputState) (resume : option string)
         (modifications : option (dict attr_value)) (w : World),
    let (outcome, w') :=
      run_agent_with_time_travel cls gr g0 fuel initial_input resume
        modifications w in
    exists new,
      trace w' = trace w ++ new
      /\ match outcome with
         | Some (Ok final) =>
             exists body id,
               new = body ++ [Saved id final]
               /\ stdout w' =
                    stdout w ++ loop_lines body
                      ++ [("Final checkpoint saved: " ++ id)%string]
         | _ => stdout w' = stdout w ++ loop_lines new
         end.
Proof.
  intros cls gr g0 fuel initial_input resume modifications w.
  unfold run_agent_with_time_travel.
  destruct (initial_state cls initial_input resume modifications w)
    as [state0|e].
  2:{ exists []. simpl. now rewrite !app_nil_r. }
  destruct (run_loop_stdout cls gr fuel g0 state0 w) as (new & Htrace & Hout).
  destruct (run_loop cls gr fuel g0 state0 w) as [[[final|e]|] w1];
    simpl in Htrace, Hout; try (now exists new).
  cbn [save_checkpoint].
  exists (new ++ [Saved (next_checkpoint_id (CHECKPOINTS w1)) final]).
  simpl. split; [now rewrite Htrace, app_assoc|].
  exists new, (next_checkpoint_id (CHECKPOINTS w1)).
  split; [reflexivity|]. now rewrite Hout, <- app_assoc.
Qed.

(** ** The keyword scan, further *)

Lemma lower_char_idempotent (c : ascii) :
  lower_char (lower_char c) = lower_char c.
Proof. destruct c as [[] [] [] [] [] [] [] []]; reflexivity. Qed.

Lemma lower_idempotent (s : string) : lower (lower s) = lower s.
Proof.
  induction s as [|c s IH]; [reflexivity|].
  simpl. now rewrite lower_char_idempotent, IH.
Qed.

Lemma lower_append (a b : string) :
  lower (a ++ b) = (lower a ++ lower b)%string.
Proof. induction a as [|c a IH]; [reflexivity|]. simpl. now rewrite IH. Qed.

Lemma sensitive_substring (m : Message) :
  contains_sensitive_info m = true
  <-> exists keyword,
        In keyword sensitive_keywords
        /\ substring_of keyword (lower (content m)).
Proof.
  unfold contains_sensitive_info, any. rewrite existsb_exists.
  split; intros [keyword [Hin H]]; exists keyword;
    (split; [exact Hin|]); now apply str_in_substring.
Qed.

(** X10: The scan has no notion of word or position: text that is flagged stays
    flagged whatever is written before and after it, and whatever the
    other fields of the message are. *)
Theorem sensitive_in_any_context :
  forall (m : Message) (before after : string) (r : Role)
         (calls : list ToolCall) (id : option string),
    contains_sensitive_info m = true ->
    contains_sensitive_info
      {| role := r; content := (before ++ content m ++ after)%string;
         tool_calls := calls; msg_id := id |} = true.
Proof.
  intros m before after r calls id H.
  apply sensitive_substring in H as (keyword & Hin & pre & post & Hm).
  apply sensitive_substring. exists keyword. split; [exact Hin|].
  cbn [content]. rewrite !lower_append, Hm.
  exists (lower before ++ pre)%string, (post ++ lower after)%string.
  induction (lower before) as [|c l IH]; simpl.
  - clear. induction pre as [|c pre IH]; simpl.
    + induction keyword as [|c k IH]; simpl; [reflexivity|].
      now rewrite IH.
    + now rewrite IH.
  - now rewrite IH.
Qed.

Lemma sensitive_in_any_context_witness :
  contains_sensitive_info
    {| role := Human;
       content :=
         ("Please note: " ++ content Scenario.leaks_password
            ++ " (do not share)")%string;
       tool_calls := []; msg_id := None |} = true.
Proof.
  apply (sensitive_in_any_context Scenario.leaks_password "Please note: "
           " (do not share)" Human [] None).
  reflexivity.
Defined.

(** X11: Lowercasing the content beforehand changes nothing: the scan sees the
    content only through its lowercase form, and that form is stable. *)
Theorem keyword_scan_ignores_case :
  forall (m : Message) (r : Role) (calls : list ToolCall)
         (id : option string),
    contains_sensitive_info
      {| role := r; content := lower (content m); tool_calls := calls;
         msg_id := id |}
    = contains_sensitive_info m.
Proof.
  intros m r calls id. unfold contains_sensitive_info. cbn [content].
  now rewrite lower_idempotent.
Qed.

(** ** The last allowed step *)

(** X12: On the last allowed step, whatever the model answers, the router does
    not send the output of the model-call node to the tools; when the model
    asked for a tool, it sends it to the end. *)
Theorem last_step_never_asks_tools :
  forall (env : Collaborators) (tick : nat) (state : State)
         (output : Output),
    is_last_step state = true ->
    call_model env tick state = Ok output ->
    route_model_output (merge_output state output) <> Ok "tools"
    /\ (forall response,
          chat_model env
            (system_entry (system_prompt env (utc_now env tick))
               :: messages state) = Ok response ->
          tool_calls response <> [] ->
          route_model_output (merge_output state output) = Ok "__end__").
Proof.
  intros env tick state output Hflag Hcall.
  unfold call_model in Hcall. rewrite Hflag in Hcall.
  destruct (chat_model env
              (system_entry (system_prompt env (utc_now env tick))
                 :: messages state)) as [response|e] eqn:Hmodel;
    [|discriminate Hcall].
  simpl in Hcall.
  destruct (tool_calls response) as [|tc tcs] eqn:Hcalls;
    simpl in Hcall; injection Hcall as <-.
  - split.
    + rewrite (route_model_output_last _ response) by apply last_item_snoc.
      rewrite Hcalls. simpl.
      destruct (isinstance_AIMessage response); simpl; [|discriminate].
      destruct (contains_sensitive_info response); discriminate.
    + intros r Hr. injection Hr as <-. intros Hne. now rewrite Hcalls in Hne.
  - split.
    + rewrite fallback_routes_to_end. discriminate.
    + intros _ _ _. apply fallback_routes_to_end.
Qed.

Lemma last_step_never_asks_tools_witness :
  route_model_output
    (merge_output Scenario.last_step
       [("messages", [AIMessage (Some "run-1") fallback_text])])
  <> Ok "tools"
  /\ (forall response,
        chat_model Scenario.keen
          (system_entry (system_prompt Scenario.keen
                           (utc_now Scenario.keen 0))
             :: messages Scenario.last_step) = Ok response ->
        tool_calls response <> [] ->
        route_model_output
          (merge_output Scenario.last_step
             [("messages", [AIMessage (Some "run-1") fallback_text])])
        = Ok "__end__").
Proof.
  exact (last_step_never_asks_tools Scenario.keen 0 Scenario.last_step
           [("messages", [AIMessage (Some "run-1") fallback_text])]
           eq_refl eq_refl).
Defined.

(** ** An empty transcript *)

(** X13: The human-review node fails exactly on an empty transcript, and an
    [IndexError] of the router means an empty transcript: [messages[-1]]
    is the only thing in either that can fail that way. *)
Theorem empty_transcript_raises :
  forall state : State,
    ((exists e, human_review state = Raise e) <-> messages state = [])
    /\ (forall msg,
          route_model_output state = Raise (IndexError msg)
          <-> messages state = [] /\ msg = "list index out of range").
Proof.
  intros state. split.
  - unfold human_review. split.
    + intros [e H]. apply last_item_nil.
      destruct (last_item (messages state)) as [m|e'];
        [discriminate H | now exists e'].
    + intros ->. now eexists.
  - intros msg. unfold route_model_output. split.
    + intros H. destruct (last_item (messages state)) as [m|e] eqn:Hlast.
      * simpl in H. destruct (isinstance_AIMessage m); simpl in H;
          [|discriminate H].
        destruct (contains_sensitive_info m); [discriminate H|].
        destruct (truthy (tool_calls m)); discriminate H.
      * assert (Hnil : messages state = [])
          by (apply last_item_nil; now exists e).
        rewrite Hnil in Hlast. cbv in Hlast. injection Hlast as <-.
        simpl in H. injection H as <-. now split.
    + intros [-> ->]. reflexivity.
Qed.

(** ** The wiring of the graph *)

Lemma route_model_output_range (state : State) (target : string) :
  route_model_output state = Ok target ->
  target = "human_review" \/ target = "tools" \/ target = "__end__".
Proof.
  unfold route_model_output.
  destruct (last_item (messages state)) as [m|e]; [|discriminate].
  simpl. destruct (isinstance_AIMessage m); simpl; [|discriminate].
  destruct (contains_sensitive_info m);
    [intros H; injection H as <-; now left|].
  destruct (truthy (tool_calls m)); intros H; injection H as <-;
    [right; now left | right; now right].
Qed.

Lemma route_model_output_no_key_error (state : State) (k : string) :
  route_model_output state <> Raise (KeyError k).
Proof.
  unfold route_model_output.
  destruct (last_item (messages state)) as [m|e] eqn:Hlast.
  - simpl. destruct (isinstance_AIMessage m); simpl; [|discriminate].
    destruct (contains_sensitive_info m); [discriminate|].
    destruct (truthy (tool_calls m)); discriminate.
  - unfold last_item in Hlast. destruct (List.rev (messages state));
      [(injection Hlast as <-)|]; discriminate.
Qed.

(** X14: The builder's graph is closed: from the start or from any of its
    nodes, the next target is the end or a node that was added, looking it
    up never fails, and the position after a step is again one of the
    nodes. *)
Theorem graph_wiring_closed :
  forall (env : Collaborators) (pos : Position) (state : State),
    known_node (at_node pos) ->
    (forall target,
        next_node (builder env) pos state = Ok target ->
        target = "__end__"
        \/ (known_node target
            /\ exists node,
                 dict_get (nodes (builder env)) target = Some node))
    /\ (forall k, next_node (builder env) pos state <> Raise (KeyError k))
    /\ (forall output pos',
          graph_execute (builder env) pos state = Ok (output, pos') ->
          known_node (at_node pos')).
Proof.
  intros env pos state Hknown.
  assert (Htarget : forall target,
             next_node (builder env) pos state = Ok target ->
             target = "__end__"
             \/ (known_node target
                 /\ exists node,
                      dict_get (nodes (builder env)) target = Some node)).
  { intros target. unfold next_node.
    destruct Hknown as [H|[H|[H|H]]]; rewrite H; simpl.
    - intros E. injection E as <-. right. split; [right; now left|].
      now eexists.
    - intros E. apply route_model_output_range in E as [-> | [-> | ->]].
      + right. split; [now do 3 right | now eexists].
      + right. split; [right; right; now left | now eexists].
      + now left.
    - intros E. injection E as <-. right. split; [right; now left|].
      now eexists.
    - intros E. injection E as <-. now left. }
  split; [exact Htarget|]. split.
  - intros k. unfold next_node.
    destruct Hknown as [H|[H|[H|H]]]; rewrite H; simpl; try discriminate.
    apply route_model_output_no_key_error.
  - intros output pos'. unfold graph_execute.
    destruct (next_node (builder env) pos state) as [target|e] eqn:Hnext;
      [|discriminate].
    cbn [bind]. destruct (String.eqb_spec target "__end__") as [->|Hne].
    + intros E. injection E as _ <-. exact Hknown.
    + destruct (Htarget target eq_refl) as [->|[Hk [node Hnode]]];
        [congruence|].
      rewrite Hnode.
      destruct (node (steps_run pos) state) as [out|e]; [|discriminate].
      cbn [bind]. intros E. injection E as _ <-. exact Hk.
Qed.

Lemma graph_wiring_closed_witness :
  (forall target,
      next_node (builder Scenario.keen) start_position Scenario.fresh
      = Ok target ->
      target = "__end__"
      \/ (known_node target
          /\ exists node,
               dict_get (nodes (builder Scenario.keen)) target = Some node))
  /\ (forall k,
        next_node (builder Scenario.keen) start_position Scenario.fresh
        <> Raise (KeyError k))
  /\ (forall output pos',
        graph_execute (builder Scenario.keen) start_position Scenario.fresh
        = Ok (output, pos') ->
        known_node (at_node pos')).
Proof.
  apply (graph_wiring_closed Scenario.keen start_position Scenario.fresh).
  now left.
Defined.

(** ** Whole runs of the graph *)

(** X15: An answer of the model that asks for no tool and is not flagged ends
    the run after one step: the state returned is the starting state with
    the answer appended, and two checkpoints were stored, one before the
    step and the final one. *)
Theorem plain_answer_ends_run :
  forall (env : Collaborators) (cls : StateClass) (fuel : nat)
         (initial_input : InputState) (resume : option string)
         (modifications : option (dict attr_value)) (w : World)
         (state : State) (m : Message),
    initial_state cls initial_input resume modifications w = Ok state ->
    chat_model env
      (system_entry (system_prompt env (utc_now env 0)) :: messages state)
    = Ok m ->
    role m = AI ->
    tool_calls m = [] ->
    contains_sensitive_info m = false ->
    let final :=
      {| messages := messages state ++ [m];
         is_last_step := is_last_step state;
         extra := extra state |} in
    run_agent_with_time_travel cls (graph env) start_position (S fuel)
      initial_input resume modifications w
    = (Some (Ok final),
       snd (save_checkpoint cls "Final checkpoint saved: " final
              (after_round cls state w))).
Proof.
  intros env cls fuel initial_input resume modifications w state m
         Hinit Hm Hrole Hcalls Hbenign final.
  apply run_from with (state := state); [exact Hinit|].
  assert (Hcall : call_model env 0 state = Ok [("messages", [m])]).
  { unfold call_model. rewrite Hm. cbn [bind]. rewrite Hcalls.
    now rewrite andb_false_r. }
  apply (run_loop_break cls (graph env) fuel start_position
           {| at_node := "call_model"; steps_run := 1 |} state
           [("messages", [m])] w).
  - apply (execute_model env start_position state [("messages", [m])]);
      [now left | exact Hcall].
  - apply (terminal_after_model env
             {| at_node := "call_model"; steps_run := 1 |}
             (merge_output state [("messages", [m])]) "__end__" eq_refl).
    rewrite (route_model_output_ai _ m); [|apply last_item_snoc|exact Hrole].
    now rewrite Hbenign, Hcalls.
Qed.

(** X16: A flagged answer of the model goes to human review and the run ends
    there, also when the answer asks for tools, which are not run: after
    two steps the state returned is the starting state with the answer
    appended twice. *)
Theorem flagged_answer_is_reviewed :
  forall (env : Collaborators) (cls : StateClass) (fuel : nat)
         (initial_input : InputState) (resume : option string)
         (modifications : option (dict attr_value)) (w : World)
         (state : State) (m : Message),
    initial_state cls initial_input resume modifications w = Ok state ->
    chat_model env
      (system_entry (system_prompt env (utc_now env 0)) :: messages state)
    = Ok m ->
    role m = AI ->
    contains_sensitive_info m = true ->
    is_last_step state = false \/ tool_calls m = [] ->
    let reviewed :=
      {| messages := messages state ++ [m];
         is_last_step := is_last_step state;
         extra := extra state |} in
    let final :=
      {| messages := (messages state ++ [m]) ++ [m];
         is_last_step := is_last_step state;
         extra := extra state |} in
    run_agent_with_time_travel cls (graph env) start_position (S (S fuel))
      initial_input resume modifications w
    = (Some (Ok final),
       snd (save_checkpoint cls "Final checkpoint saved: " final
              (after_round cls reviewed (after_round cls state w)))).
Proof.
  intros env cls fuel initial_input resume modifications w state m
         Hinit Hm Hrole Hflagged Hnofallback reviewed final.
  apply run_from with (state := state); [exact Hinit|].
  assert (Hcall : call_model env 0 state = Ok [("messages", [m])]).
  { unfold call_model. rewrite Hm. cbn [bind].
    destruct Hnofallback as [-> | ->]; [reflexivity|].
    now rewrite andb_false_r. }
  assert (Hroute : route_model_output reviewed = Ok "human_review").
  { rewrite (route_model_output_ai _ m); [|apply last_item_snoc|exact Hrole].
    now rewrite Hflagged. }
  rewrite (run_loop_continue cls (graph env) (S fuel) start_position
             {| at_node := "call_model"; steps_run := 1 |} state
             [("messages", [m])] w).
  - apply (run_loop_break cls (graph env) fuel
             {| at_node := "call_model"; steps_run := 1 |}
             {| at_node := "human_review"; steps_run := 2 |} reviewed
             [("messages", [m])]).
    + apply (execute_routed env
               {| at_node := "call_model"; steps_run := 1 |} reviewed
               "human_review" (fun _ => human_review) [("messages", [m])]);
        try reflexivity; [exact Hroute|].
      unfold human_review, reviewed. cbn [messages].
      now rewrite last_item_snoc.
    + reflexivity.
  - apply (execute_model env start_position state [("messages", [m])]);
      [now left | exact Hcall].
  - apply (terminal_after_model env
             {| at_node := "call_model"; steps_run := 1 |}
             (merge_output state [("messages", [m])]) "human_review" eq_refl).
    exact Hroute.
Qed.

(** X17: One round of the agent: the model asks for a tool, the tool node
    answers, the model gives its answer.  The run returns after three steps
    with the request, the tool results and the answer appended in that
    order. *)
Theorem tool_round_ends_run :
  forall (env : Collaborators) (cls : StateClass) (fuel : nat)
         (initial_input : InputState) (resume : option string)
         (modifications : option (dict attr_value)) (w : World)
         (state : State) (request answer : Message)
         (results : list Message),
    initial_state cls initial_input resume modifications w = Ok state ->
    is_last_step state = false ->
    chat_model env
      (system_entry (system_prompt env (utc_now env 0)) :: messages state)
    = Ok request ->
    role request = AI ->
    tool_calls request <> [] ->
    contains_sensitive_info request = false ->
    let asked :=
      {| messages := messages state ++ [request];
         is_last_step := false; extra := extra state |} in
    tool_node env asked = Ok [("messages", results)] ->
    let informed :=
      {| messages := (messages state ++ [request]) ++ results;
         is_last_step := false; extra := extra state |} in
    chat_model env
      (system_entry (system_prompt env (utc_now env 2)) :: messages informed)
    = Ok answer ->
    role answer = AI ->
    tool_calls answer = [] ->
    contains_sensitive_info answer = false ->
    let final :=
      {| messages := ((messages state ++ [request]) ++ results) ++ [answer];
         is_last_step := false; extra := extra state |} in
    run_agent_with_time_travel cls (graph env) start_position
      (S (S (S fuel))) initial_input resume modifications w
    = (Some (Ok final),
       snd (save_checkpoint cls "Final checkpoint saved: " final
              (after_round cls informed
                 (after_round cls asked (after_round cls state w))))).
Proof.
  intros env cls fuel initial_input resume modifications w state request
         answer results Hinit Hflag Hreq Hrole Hcalls Hbenign asked Htools
         informed Hans Hrole' Hcalls' Hbenign' final.
  apply run_from with (state := state); [exact Hinit|].
  assert (Htruthy : truthy (tool_calls request) = true)
    by (destruct (tool_calls request); [contradiction|reflexivity]).
  assert (Hm1 : merge_output state [("messages", [request])] = asked)
    by (unfold merge_output, asked; simpl; now rewrite Hflag).
  assert (Hroute : route_model_output asked = Ok "tools").
  { rewrite (route_model_output_ai _ request);
      [|apply last_item_snoc|exact Hrole].
    now rewrite Hbenign, Htruthy. }
  rewrite (run_loop_continue cls (graph env) (S (S fuel)) start_position
             {| at_node := "call_model"; steps_run := 1 |} state
             [("messages", [request])] w).
  - rewrite Hm1.
    rewrite (run_loop_continue cls (graph env) (S fuel)
               {| at_node := "call_model"; steps_run := 1 |}
               {| at_node := "tools"; steps_run := 2 |} asked
               [("messages", results)]).
    + apply (run_loop_break cls (graph env) fuel
               {| at_node := "tools"; steps_run := 2 |}
               {| at_node := "call_model"; steps_run := 3 |} informed
               [("messages", [answer])]).
      * apply (execute_model env {| at_node := "tools"; steps_run := 2 |}
                 informed [("messages", [answer])]); [now right|].
        unfold call_model. cbn [steps_run]. rewrite Hans. cbn [bind].
        now rewrite Hcalls'.
      * apply (terminal_after_model env
                 {| at_node := "call_model"; steps_run := 3 |}
                 (merge_output informed [("messages", [answer])])
                 "__end__" eq_refl).
        rewrite (route_model_output_ai _ answer);
          [|apply last_item_snoc|exact Hrole'].
        now rewrite Hbenign', Hcalls'.
    + apply (execute_routed env
               {| at_node := "call_model"; steps_run := 1 |} asked "tools"
               (fun _ => tool_node env) [("messages", results)]);
        try reflexivity; [exact Hroute | exact Htools].
    + reflexivity.
  - apply (execute_model env start_position state
             [("messages", [request])]); [now left|].
    unfold call_model. cbn [start_position steps_run]. rewrite Hreq.
    cbn [bind]. now rewrite Hflag.
  - rewrite Hm1.
    apply (terminal_after_model env
             {| at_node := "call_model"; steps_run := 1 |} asked "tools"
             eq_refl Hroute).
Qed.

Lemma plain_answer_ends_run_witness :
  fst (run_agent_with_time_travel StateSpec.state_class
         (graph Scenario.direct) start_position 4
         {| input_messages := [Scenario.question] |} None None empty_world)
  = Some (Ok {| messages := [Scenario.question; Scenario.benign_answer];
                is_last_step := false; extra := [] |}).
Proof.
  rewrite (plain_answer_ends_run Scenario.direct StateSpec.state_class 3
             {| input_messages := [Scenario.question] |} None None
             empty_world Scenario.fresh Scenario.benign_answer
             eq_refl eq_refl eq_refl eq_refl eq_refl).
  reflexivity.
Defined.

Lemma flagged_answer_is_reviewed_witness :
  fst (run_agent_with_time_travel StateSpec.state_class
         (graph Scenario.leaky) start_position 4
         {| input_messages := [Scenario.question] |} None None empty_world)
  = Some (Ok {| messages := [Scenario.question; Scenario.leaks_and_searches;
                             Scenario.leaks_and_searches];
                is_last_step := false; extra := [] |}).
Proof.
  rewrite (flagged_answer_is_reviewed Scenario.leaky StateSpec.state_class 2
             {| input_messages := [Scenario.question] |} None None
             empty_world Scenario.fresh Scenario.leaks_and_searches
             eq_refl eq_refl eq_refl eq_refl (or_introl eq_refl)).
  reflexivity.
Defined.

Lemma tool_round_ends_run_witness :
  fst (run_agent_with_time_travel StateSpec.state_class
         (graph Scenario.once) start_position 5
         {| input_messages := [Scenario.question] |} None None empty_world)
  = Some (Ok {| messages := [Scenario.question; Scenario.wants_tool;
                             Scenario.tool_result; Scenario.benign_answer];
                is_last_step := false; extra := [] |}).
Proof.
  rewrite (tool_round_ends_run Scenario.once StateSpec.state_class 2
             {| input_messages := [Scenario.question] |} None None
             empty_world Scenario.fresh Scenario.wants_tool
             Scenario.benign_answer [Scenario.tool_result]
             eq_refl eq_refl eq_refl eq_refl
             (fun E => nil_cons (eq_sym E)) eq_refl eq_refl eq_refl eq_refl
             eq_refl eq_refl).
  reflexivity.
Defined.

(** ** Modifications on resume *)

Lemma dict_get_absent {V} (d : dict V) (k : string) :
  ~ In k (dict_keys d) -> dict_get d k = None.
Proof.
  intros H. rewrite <- (app_nil_r d). now rewrite dict_get_app_r.
Qed.

Lemma setattr_value (s : State) (key : string) (v : json) :
  key <> "messages" ->
  setattr s key (AValue v)
  = Ok {| messages := messages s;
          is_last_step :=
            if String.eqb key "is_last_step" then truth_value v
            else is_last_step s;
          extra :=
            if String.eqb key "is_last_step" then extra s
            else dict_set (extra s) key v |}.
Proof.
  intros Hkey. unfold setattr.
  destruct (String.eqb_spec key "messages") as [E|_]; [contradiction|].
  now destruct (String.eqb key "is_last_step").
Qed.

(** [setattr] takes a value of any type for the flag. *)
Example setattr_stores_any_value :
  setattr Scenario.fresh "is_last_step" (AValue (JInt 1))
  = Ok Scenario.last_step
  /\ setattr Scenario.fresh "is_last_step" (AValue (JStr "no"))
     = Ok Scenario.last_step
  /\ setattr Scenario.last_step "is_last_step" (AValue JNull)
     = Ok Scenario.fresh.
Proof. repeat split. Qed.


